(** * vscode-manuals: the text analyzers of [src/extension.ts]

    A shallow embedding of the three analyzers of the extension
    ([parseManEntry], [provideDocumentLinks], [provideFoldingRanges])
    together with the JavaScript string primitives and the two regular
    expressions they rely on, followed by the properties of the
    specification that concern them. *)

From Stdlib Require Import String Ascii.
From Stdlib Require Import List NArith ZArith Arith Bool Lia.
Import ListNotations.
Open Scope list_scope.

Set Implicit Arguments.

(** ** JavaScript strings

    A JavaScript string is a sequence of UTF-16 code units.  [split],
    [trimEnd], regular expressions without the [u] flag, [match.index] and
    [length] all work on code units, and so do editor positions. *)

Definition char := N.
Definition jsstring := list char.

Definition js (s : string) : jsstring :=
  map N_of_ascii (list_ascii_of_string s).

Definition lparen : char := 40%N.
Definition rparen : char := 41%N.
Definition newline : char := 10%N.
Definition space : char := 32%N.

(** [s.split(sep)] for a separator of one code unit, which is how every
    call site of the source uses it.  The result always has at least one
    element. *)
Fixpoint split (sep : char) (s : jsstring) : list jsstring :=
  match s with
  | [] => [[]]
  | c :: s' =>
      if N.eqb c sep then [] :: split sep s'
      else match split sep s' with
           | p :: ps => (c :: p) :: ps
           | [] => [[c]]
           end
  end.

(** White space and line terminators of ECMAScript, the code units that
    [trimEnd] (and [trim], [trimStart]) remove. *)
Definition isWhiteSpace (c : char) : bool :=
  ((9 <=? c) && (c <=? 13) || (c =? 32) || (c =? 160) || (c =? 5760)
   || (8192 <=? c) && (c <=? 8202) || (c =? 8232) || (c =? 8233)
   || (c =? 8239) || (c =? 8287) || (c =? 12288) || (c =? 65279))%N.

Fixpoint trimStart (s : jsstring) : jsstring :=
  match s with
  | c :: s' => if isWhiteSpace c then trimStart s' else s
  | [] => []
  end.

Definition trimEnd (s : jsstring) : jsstring := rev (trimStart (rev s)).

Definition trim (s : jsstring) : jsstring := trimEnd (trimStart s).

(** ** Outcomes of a call

    A function of the source either returns or throws.  The source throws
    strings ([throw "..."]); reading a property of [undefined] makes the
    runtime throw a [TypeError]. *)

Inductive exn : Type :=
| TypeError
| Thrown (msg : string).

Inductive outcome (A : Type) : Type :=
| Return (a : A)
| Throw (e : exn).

Arguments Return {A} a.
Arguments Throw {A} e.

Definition bind {A B} (m : outcome A) (f : A -> outcome B) : outcome B :=
  match m with
  | Return a => f a
  | Throw e => Throw e
  end.

Notation "x <- m ;; k" := (bind m (fun x => k))
  (at level 61, m at next level, right associativity).

(** [a[i]] followed by a property access: [undefined] raises. *)
Definition element {A} (a : list A) (i : nat) : outcome A :=
  match nth_error a i with
  | Some x => Return x
  | None => Throw TypeError
  end.

(** The error kinds of the specification (section 7) and the thrown values
    of the source they stand for.  The source has one [throw] for an invalid
    page and one for a failed [man] process; nothing in it signals a
    malformed entry, and a [TypeError] belongs to no kind. *)
Inductive ErrorKind : Type :=
| MalformedEntry
| InvalidPageStructure
| ProcessError.

Definition invalidManPage : string :=
  "Can't create final FoldingRange: invalid man page".

Definition manNotInstalled : string := "is man installed?".

Definition errorKind (e : exn) : option ErrorKind :=
  match e with
  | TypeError => None
  | Thrown msg =>
      if String.eqb msg invalidManPage then Some InvalidPageStructure
      else if String.eqb msg manNotInstalled then Some ProcessError
      else None
  end.

(** ** parseManEntry *)

Record ManEntry : Type := mkManEntry { name : jsstring; section : jsstring }.

Definition parseManEntry (apropos : jsstring) : outcome ManEntry :=
  let parts := split lparen apropos in
  p0 <- element parts 0 ;;
  let head := trimEnd p0 in
  p1 <- element parts 1 ;;
  Return {| name := head; section := hd [] (split rparen p1) |}.

(** ** Regular expressions

    The two regular expressions of the source are sequences of character
    classes, one of them under a greedy [+], with the anchors [^] and [$].
    The matcher is the backtracking one of ECMAScript: a greedy [+] takes
    as many code units as it can and gives them back one at a time while
    the rest of the pattern fails. *)

Module Regex.

(** A class is a list of inclusive ranges of code units. *)
Definition charclass := list (char * char).

Definition in_class (cls : charclass) (c : char) : bool :=
  existsb (fun r => (fst r <=? c) && (c <=? snd r))%N cls.

Inductive node : Type :=
| Bol                      (* ^ *)
| Eol                      (* $ *)
| Chr (cls : charclass)    (* [...] *)
| Plus (cls : charclass).  (* [...]+ *)

Definition regex := list node.

(** Zero or more further code units of [cls], longest first, then the
    continuation [k]; the result is the number of code units matched. *)
Fixpoint greedy (cls : charclass) (k : jsstring -> option nat)
         (s : jsstring) : option nat :=
  match s with
  | c :: s' =>
      if in_class cls c then
        match greedy cls k s' with
        | Some n => Some (S n)
        | None => k s
        end
      else k s
  | [] => k s
  end.

(** [matchHere r first s]: the length of the match of [r] anchored at the
    head of [s]; [first] tells whether that is index 0 of the input. *)
Fixpoint matchHere (r : regex) (first : bool) (s : jsstring)
  : option nat :=
  match r with
  | [] => Some 0
  | Bol :: r' => if first then matchHere r' first s else None
  | Eol :: r' =>
      match s with
      | [] => matchHere r' first s
      | _ :: _ => None
      end
  | Chr cls :: r' =>
      match s with
      | c :: s' =>
          if in_class cls c then option_map S (matchHere r' false s')
          else None
      | [] => None
      end
  | Plus cls :: r' =>
      match s with
      | c :: s' =>
          if in_class cls c
          then option_map S (greedy cls (matchHere r' false) s')
          else None
      | [] => None
      end
  end.

(** [s.match(r)] for a regular expression without the [g] flag: the
    leftmost index at which [r] matches, and the length of the match. *)
Fixpoint search (r : regex) (idx : nat) (s : jsstring)
  : option (nat * nat) :=
  match matchHere r (Nat.eqb idx 0) s with
  | Some len => Some (idx, len)
  | None =>
      match s with
      | [] => None
      | _ :: s' => search r (S idx) s'
      end
  end.

(** Whether [s.match(r)] is a match rather than [null]. *)
Definition test (r : regex) (s : jsstring) : bool :=
  match search r 0 s with Some _ => true | None => false end.

(** [s.matchAll(r)] for a regular expression with the [g] flag: each
    search starts at [lastIndex], the end of the previous match (one
    further after an empty match).  [skip] is the distance from the
    current index to [lastIndex]; a match is its index and its text. *)
Fixpoint matchAllFrom (r : regex) (idx skip : nat) (s : jsstring)
  : list (nat * jsstring) :=
  match s with
  | [] =>
      match skip, matchHere r (Nat.eqb idx 0) [] with
      | 0, Some len => [(idx, [])]
      | _, _ => []
      end
  | _ :: s' =>
      match skip with
      | S k => matchAllFrom r (S idx) k s'
      | 0 =>
          match matchHere r (Nat.eqb idx 0) s with
          | Some len =>
              (idx, firstn len s) :: matchAllFrom r (S idx) (len - 1) s'
          | None => matchAllFrom r (S idx) 0 s'
          end
      end
  end.

Definition matchAll (r : regex) (s : jsstring) : list (nat * jsstring) :=
  matchAllFrom r 0 0 s.

(** The classes of the source. *)
Definition upper : charclass := [(65, 90)]%N.          (* A-Z *)
Definition lower : charclass := [(97, 122)]%N.         (* a-z *)
Definition digit : charclass := [(48, 57)]%N.          (* \d *)
Definition word : charclass :=                         (* \w *)
  [(65, 90); (97, 122); (48, 57); (95, 95)]%N.
Definition one (c : char) : charclass := [(c, c)].

End Regex.

Import Regex.

(** [/[a-z][\w-]+\(\d\)/g] *)
Definition wordOrHyphen : charclass := word ++ one 45%N.

Definition linkClose : regex :=
  [ Chr (one lparen); Chr digit; Chr (one rparen) ].

Definition linkRegex : regex := Chr lower :: Plus wordOrHyphen :: linkClose.

(** [/^[A-Z"_.:'][A-Za-z"_.:' ,-]+$/]: the classes hold, in the order of
    the source, A-Z, the double quote (34), underscore (95), period (46),
    colon (58), apostrophe (39) and, in the second one, a-z after A-Z and
    then space (32), comma (44) and hyphen (45). *)
Definition headingClass1 : charclass :=
  (upper ++ one 34 ++ one 95 ++ one 46 ++ one 58 ++ one 39)%N.

Definition headingClass2 : charclass :=
  (upper ++ lower ++ one 34 ++ one 95 ++ one 46 ++ one 58
   ++ one 39 ++ one 32 ++ one 44 ++ one 45)%N.

Definition headingRegex : regex :=
  [ Bol; Chr headingClass1; Plus headingClass2; Eol ].

(** ** provideDocumentLinks *)

Record Position : Type := mkPosition { line : nat; character : nat }.

Definition translate (p : Position) (lineDelta characterDelta : nat)
  : Position :=
  {| line := line p + lineDelta; character := character p + characterDelta |}.

Record Range : Type := mkRange { range_start : Position; range_end : Position }.

Record DocumentLink : Type := mkLink { range : Range; target : jsstring }.

(** The links of line [i]: one per match, in the order of the matches. *)
Definition lineLinks (i : nat) (l : jsstring) : list DocumentLink :=
  map (fun m : nat * jsstring =>
         let uri := js "man:" ++ snd m in
         let pos := mkPosition i (fst m) in
         mkLink (mkRange pos (translate pos 0 (length (snd m)))) uri)
      (matchAll linkRegex l).

Definition provideDocumentLinks (document : jsstring) : list DocumentLink :=
  let lines := split newline document in
  fold_left (fun result i => result ++ lineLinks i (nth i lines []))
            (seq 0 (length lines)) [].

(** ** provideFoldingRanges *)

(** [new vscode.FoldingRange(start, end, kind)]; the kind is
    [FoldingRangeKind.Region] throughout and is left out. *)
Record FoldingRange : Type := mkFold { fold_start : Z; fold_end : Z }.

Definition isHeading (l : jsstring) : bool := test headingRegex l.

(** The variables the loop updates. *)
Record foldState : Type :=
  mkFoldState { result : list FoldingRange; foldStart : Z }.

Definition foldStep (lines : list jsstring) (st : foldState) (i : nat)
  : foldState :=
  if isHeading (nth i lines [])
  then {| result := result st ++ [mkFold (foldStart st) (Z.of_nat i - 1)];
          foldStart := Z.of_nat i |}
  else st.

(** The loop [for (let i = 3; i < lines.length; i++)]. *)
Definition foldLoop (lines : list jsstring) : foldState :=
  fold_left (foldStep lines) (seq 3 (length lines - 3))
            {| result := []; foldStart := 2 |}.

Definition foldingRangesOfLines (lines : list jsstring)
  : outcome (list FoldingRange) :=
  let st := foldLoop lines in
  let to := (Z.of_nat (length lines) - 4)%Z in
  if (foldStart st >=? to)%Z then Throw (Thrown invalidManPage)
  else Return (result st ++ [mkFold (foldStart st) to]).

Definition provideFoldingRanges (document : jsstring)
  : outcome (list FoldingRange) :=
  foldingRangesOfLines (split newline document).

(** ** Vocabulary of the specification *)

(** The text of a document with the given lines ([lines.join("\n")]). *)
Fixpoint joinLines (ls : list jsstring) : jsstring :=
  match ls with
  | [] => []
  | [l] => l
  | l :: ls' => l ++ newline :: joinLines ls'
  end.

Definition page (ls : list string) : jsstring := joinLines (map js ls).

Definition failsWith {A} (k : ErrorKind) (o : outcome A) : Prop :=
  exists e, o = Throw e /\ errorKind e = Some k.

Fixpoint takeWhile {A} (p : A -> bool) (s : list A) : list A :=
  match s with
  | c :: s' => if p c then c :: takeWhile p s' else []
  | [] => []
  end.

Fixpoint dropWhile {A} (p : A -> bool) (s : list A) : list A :=
  match s with
  | c :: s' => if p c then dropWhile p s' else s
  | [] => []
  end.

Definition isParen (c : char) : bool := (c =? lparen)%N || (c =? rparen)%N.

Definition noParen (s : jsstring) : Prop := ~ In lparen s /\ ~ In rparen s.

(** The last code unit of [s], if any, is white space. *)
Definition endsWithWhiteSpace (s : jsstring) : bool :=
  match rev s with
  | c :: _ => isWhiteSpace c
  | [] => false
  end.

(** The data-model invariant of the specification speaks of the text
    between the first [(] of a line and the [)] that follows it. *)
Definition betweenParens (l : jsstring) : option jsstring :=
  match dropWhile (fun c => negb (c =? lparen)%N) l with
  | _ :: tail =>
      if existsb (N.eqb rparen) tail
      then Some (takeWhile (fun c => negb (c =? rparen)%N) tail)
      else None
  | [] => None
  end.

(** Section 6: a page is addressed by [man:<name> (<section>)]; the path of
    that address, the part after the scheme, is what the content provider
    hands to [parseManEntry] ([uri.path]). *)
Definition addressPath (e : ManEntry) : jsstring :=
  name e ++ js " (" ++ section e ++ js ")".

Definition formatAddress (e : ManEntry) : jsstring :=
  js "man:" ++ addressPath e.

(** Character classes in words. *)
Definition isUpper (c : char) : Prop := (65 <= c <= 90)%N.
Definition isLower (c : char) : Prop := (97 <= c <= 122)%N.
Definition isDigit (c : char) : Prop := (48 <= c <= 57)%N.

(** Double quote, underscore, period, colon, apostrophe. *)
Definition isHeadingMark (c : char) : Prop :=
  (c = 34 \/ c = 95 \/ c = 46 \/ c = 58 \/ c = 39)%N.

(** Space, comma, hyphen. *)
Definition isHeadingSeparator (c : char) : Prop :=
  (c = 32 \/ c = 44 \/ c = 45)%N.

Definition headingFirst (c : char) : Prop := isUpper c \/ isHeadingMark c.

(** What the source accepts after the first character. *)
Definition headingNext (c : char) : Prop :=
  isUpper c \/ isLower c \/ isHeadingMark c \/ isHeadingSeparator c.

(** What section 4.3 of the specification accepts there. *)
Definition specHeadingNext (c : char) : Prop :=
  isUpper c \/ isHeadingMark c \/ isHeadingSeparator c.

(** The heading rule in the words of section 4.3: a first character of the
    first class, every later one of the second, one character at least. *)
Definition specHeading (l : jsstring) : Prop :=
  exists c rest, l = c :: rest /\ headingFirst c /\ Forall specHeadingNext rest.

(** A word character ([\w]) or a hyphen. *)
Definition isWordOrHyphen (c : char) : Prop :=
  isUpper c \/ isLower c \/ isDigit c \/ (c = 95)%N \/ (c = 45)%N.

(** The cross-reference pattern: a lowercase letter, one or more word
    characters or hyphens, [(], one digit, [)]. *)
Definition refPattern (w : jsstring) : Prop :=
  exists c run d,
    w = c :: run ++ [lparen; d; rparen]
    /\ isLower c /\ run <> [] /\ Forall isWordOrHyphen run /\ isDigit d.

Definition substring (s : jsstring) (col len : nat) : jsstring :=
  firstn len (skipn col s).

(** [w] occupies the columns [col .. col + length w - 1] of [l]. *)
Definition occursAt (l : jsstring) (col : nat) (w : jsstring) : Prop :=
  col + length w <= length l /\ substring l col (length w) = w.

(** The match of [linkRegex] at the head of [s], if any (the pattern has
    no anchor, so the index does not matter). *)
Definition refMatch (s : jsstring) : option nat := matchHere linkRegex false s.

(** From inside the name of a reference, the number of code units up to
    the end of the reference. *)
Fixpoint refEnd (s : jsstring) : option nat :=
  match s with
  | x :: s' =>
      if in_class wordOrHyphen x then option_map S (refEnd s')
      else matchHere linkClose false s
  | [] => None
  end.

(** A match of length [len] at offset [j] of [s] that no match starting at
    an offset from [k] on and before [j] extends: the matches a scan that
    starts at offset [k] reports. *)
Definition leftmostFrom (k : nat) (s : jsstring) (j len : nat) : Prop :=
  k <= j
  /\ refMatch (skipn j s) = Some len
  /\ forall j', k <= j' -> j' < j ->
               refMatch (skipn j' s) <> Some (len + (j - j')).

(** The spans of the specification, read off the ranges of the links. *)
Record TextSpan : Type :=
  mkSpan { spanLine : nat; startColumn : nat; spanLength : nat }.

Definition spanOf (l : DocumentLink) : TextSpan :=
  {| spanLine := line (range_start (range l));
     startColumn := character (range_start (range l));
     spanLength := character (range_end (range l))
                   - character (range_start (range l)) |}.

Definition scanSpans (document : jsstring) : list TextSpan :=
  map spanOf (provideDocumentLinks document).

(** [a] comes before [b]: on an earlier line, or on the same line, further
    left and without overlap. *)
Definition spanBefore (a b : TextSpan) : Prop :=
  spanLine a < spanLine b
  \/ (spanLine a = spanLine b
      /\ startColumn a < startColumn b
      /\ startColumn a + spanLength a <= startColumn b).

(** The same for the matches of one line. *)
Definition matchBefore (a b : nat * jsstring) : Prop :=
  fst a < fst b /\ fst a + length (snd a) <= fst b.

(** The span of a match on line [i]. *)
Definition matchSpan (i : nat) (m : nat * jsstring) : TextSpan :=
  mkSpan i (fst m) (length (snd m)).

(** [count] consecutive line numbers from [a] on. *)
Fixpoint lineNumbers (a : Z) (count : nat) : list Z :=
  match count with
  | 0 => []
  | S n => a :: lineNumbers (a + 1) n
  end.

(** The line numbers [a .. b]. *)
Definition linesFromTo (a b : Z) : list Z :=
  lineNumbers a (Z.to_nat (b - a + 1)).

(** The lines [fold_start .. fold_end] of a region. *)
Definition regionLines (r : FoldingRange) : list Z :=
  linesFromTo (fold_start r) (fold_end r).

(** Each region starts on the line after the end of the one before it. *)
Definition adjacent (rs : list FoldingRange) : Prop :=
  forall i r r',
    nth_error rs i = Some r -> nth_error rs (S i) = Some r' ->
    fold_start r' = (fold_end r + 1)%Z.

(** [chain a rs b]: the regions [rs] are non-empty, each starts where the
    previous one ended, the first at [a], and the last ends at [b - 1]. *)
Inductive chain : Z -> list FoldingRange -> Z -> Prop :=
| chain_nil : forall a, chain a [] a
| chain_cons : forall a e rs b,
    (a <= e)%Z -> chain (e + 1) rs b -> chain a (mkFold a e :: rs) b.

Definition headingAt (lines : list jsstring) (i : nat) : Prop :=
  exists l, nth_error lines i = Some l /\ isHeading l = true.

(** [k] is the index of the last heading among the lines of index 3 and
    more, or 2 when there is none. *)
Definition lastHeading (lines : list jsstring) (k : nat) : Prop :=
  (forall i, k < i -> 3 <= i -> ~ headingAt lines i)
  /\ (k = 2 \/ (3 <= k /\ headingAt lines k)).

(** ** The process, the content provider and the command

    [child_process.spawnSync] and the editor are outside the extension: the
    process is a parameter, and of the editor's [Uri] only [path] is read. *)

(** What of the result of [spawnSync] the source reads: [proc.error], set
    when the process could not be run, and [proc.stdout.toString()]. *)
Record SpawnSyncReturns : Type :=
  mkProc { error : option string; stdout : jsstring }.

Record Uri : Type :=
  mkUri { scheme : jsstring; authority : jsstring; path : jsstring;
          query : jsstring; fragment : jsstring }.

Section Process.

Variable spawnSync : jsstring -> list jsstring -> SpawnSyncReturns.

(** The promise of [systemManuals]: rejected with the thrown string, or
    resolved with the lines of [man -k ''] (the buffer size given to
    [spawnSync] plays no part here). *)
Definition systemManuals : outcome (list jsstring) :=
  let proc := spawnSync (js "man") [js "-k"; js ""] in
  match error proc with
  | Some _ => Throw (Thrown manNotInstalled)
  | None => Return (split newline (stdout proc))
  end.

Definition provideTextDocumentContent (uri : Uri) : outcome jsstring :=
  entry <- parseManEntry (path uri) ;;
  let proc := spawnSync (js "man") [section entry; name entry] in
  match error proc with
  | Some _ => Throw (Thrown manNotInstalled)
  | None => Return (stdout proc)
  end.

End Process.

(** [s.startsWith(needle)]. *)
Fixpoint startsWith (needle s : jsstring) : bool :=
  match needle, s with
  | [], _ => true
  | a :: needle', b :: s' => (a =? b)%N && startsWith needle' s'
  | _ :: _, [] => false
  end.

(** [s.indexOf(needle)]: the first index at which [needle] occurs, or -1;
    [idx] is the index of the head of [s] in the whole string. *)
Fixpoint indexOfFrom (needle s : jsstring) (idx : nat) : Z :=
  if startsWith needle s then Z.of_nat idx
  else match s with
       | [] => (-1)%Z
       | _ :: s' => indexOfFrom needle s' (S idx)
       end.

Definition indexOf (needle s : jsstring) : Z := indexOfFrom needle s 0.

(** [s.slice(start, end)]: a negative bound counts from the end, and both
    are clamped to the string. *)
Definition slice (s : jsstring) (start end_ : Z) : jsstring :=
  let len := Z.of_nat (length s) in
  let from := if (start <? 0)%Z then Z.max (len + start) 0
              else Z.min start len in
  let to := if (end_ <? 0)%Z then Z.max (len + end_) 0
            else Z.min end_ len in
  firstn (Z.to_nat (to - from)) (skipn (Z.to_nat from) s).

(** The command [manuals.man], once the quick pick has answered with
    [pick] ([None] for [undefined], a dismissed pick): the string it hands
    to [Uri.parse] and opens, or [None] when it opens nothing.  The empty
    string is falsy. *)
Definition manualsMan (pick : option jsstring) : option jsstring :=
  match pick with
  | None => None
  | Some [] => None
  | Some pick =>
      let i := indexOf (js ") ") pick in
      Some (js "man:" ++ slice pick 0 (i + 1))
  end.

(** The indices, from 3 on, of the heading lines of a page. *)
Definition headingIndices (lines : list jsstring) : list nat :=
  filter (fun i => isHeading (nth i lines [])) (seq 3 (length lines - 3)).

(** A link moved down by [k] lines. *)
Definition shiftPosition (k : nat) (p : Position) : Position :=
  mkPosition (k + line p) (character p).

Definition shiftLink (k : nat) (l : DocumentLink) : DocumentLink :=
  mkLink (mkRange (shiftPosition k (range_start (range l)))
                  (shiftPosition k (range_end (range l))))
         (target l).

(** * Properties *)

(** ** Strings *)

Lemma split_nonempty : forall sep s, split sep s <> [].
Proof.
  intros sep s; destruct s as [|c s]; simpl; [discriminate|].
  destruct (N.eqb c sep); [discriminate|].
  destruct (split sep s); discriminate.
Qed.

Lemma split_no_sep : forall sep s, ~ In sep s -> split sep s = [s].
Proof.
  induction s as [|c s IH]; intros Hn; simpl; [reflexivity|].
  destruct (N.eqb_spec c sep) as [->|Hc].
  - exfalso; apply Hn; left; reflexivity.
  - rewrite IH; [reflexivity|]. intros Hin; apply Hn; right; exact Hin.
Qed.

Lemma split_app_sep : forall sep a b,
  ~ In sep a -> split sep (a ++ sep :: b) = a :: split sep b.
Proof.
  induction a as [|c a IH]; intros b Hn; simpl.
  - rewrite N.eqb_refl; reflexivity.
  - destruct (N.eqb_spec c sep) as [->|Hc].
    + exfalso; apply Hn; left; reflexivity.
    + rewrite IH; [reflexivity|]. intros Hin; apply Hn; right; exact Hin.
Qed.

(** The first part of a split holds no separator, and the input is that
    part alone or that part, a separator and the rest. *)
Lemma split_head : forall sep s,
  exists p ps, split sep s = p :: ps /\ ~ In sep p
    /\ p = takeWhile (fun c => negb (N.eqb c sep)) s
    /\ (ps = [] -> s = p)
    /\ (ps <> [] -> exists t, s = p ++ sep :: t /\ ps = split sep t).
Proof.
  induction s as [|c s IH]; simpl.
  - exists [], []; repeat split; auto. congruence.
  - destruct (N.eqb_spec c sep) as [->|Hc]; simpl.
    + exists [], (split sep s); repeat split; auto.
      * intros H; exfalso; exact (split_nonempty _ _ H).
      * intros _; exists s; auto.
    + destruct IH as (p & ps & -> & Hp & Htw & Hnil & Hcons).
      exists (c :: p), ps; repeat split.
      * intros [H|H]; [congruence | exact (Hp H)].
      * rewrite Htw; reflexivity.
      * intros H; rewrite <- (Hnil H); reflexivity.
      * intros H; destruct (Hcons H) as (t & -> & ->).
        exists t; auto.
Qed.

Lemma trimStart_nonwhite : forall s,
  match s with c :: _ => isWhiteSpace c = false | [] => True end ->
  trimStart s = s.
Proof. intros [|c s] H; simpl; [reflexivity | rewrite H; reflexivity]. Qed.

Lemma trimStart_head : forall s,
  match trimStart s with c :: _ => isWhiteSpace c = false | [] => True end.
Proof.
  induction s as [|c s IH]; simpl; [exact I|].
  destruct (isWhiteSpace c) eqn:E; [exact IH | exact E].
Qed.

Lemma trimEnd_fixed : forall s, endsWithWhiteSpace s = false -> trimEnd s = s.
Proof.
  intros s H; unfold trimEnd, endsWithWhiteSpace in *.
  rewrite trimStart_nonwhite; [apply rev_involutive|].
  destruct (rev s); [exact I | exact H].
Qed.

Lemma trimEnd_clean : forall s, endsWithWhiteSpace (trimEnd s) = false.
Proof.
  intros s; unfold trimEnd, endsWithWhiteSpace; rewrite rev_involutive.
  pose proof (trimStart_head (rev s)) as H.
  destruct (trimStart (rev s)); [reflexivity | exact H].
Qed.

Lemma trimEnd_snoc_white : forall s c,
  isWhiteSpace c = true -> trimEnd (s ++ [c]) = trimEnd s.
Proof.
  intros s c H; unfold trimEnd; rewrite rev_app_distr; simpl.
  rewrite H; reflexivity.
Qed.

Lemma trimStart_incl : forall s c, In c (trimStart s) -> In c s.
Proof.
  induction s as [|a s IH]; simpl; intros c H; [exact H|].
  destruct (isWhiteSpace a); [right; apply IH; exact H | exact H].
Qed.

Lemma trimEnd_incl : forall s c, In c (trimEnd s) -> In c s.
Proof.
  intros s c H; unfold trimEnd in H.
  apply in_rev, trimStart_incl, in_rev in H; exact H.
Qed.

Lemma takeWhile_dropWhile : forall A (p : A -> bool) s,
  takeWhile p s ++ dropWhile p s = s.
Proof.
  induction s as [|c s IH]; simpl; [reflexivity|].
  destruct (p c); simpl; [rewrite IH|]; reflexivity.
Qed.

Lemma takeWhile_all : forall A (p : A -> bool) s,
  Forall (fun c => p c = true) (takeWhile p s).
Proof.
  induction s as [|c s IH]; simpl; [constructor|].
  destruct (p c) eqn:E; constructor; assumption.
Qed.

Lemma dropWhile_head : forall A (p : A -> bool) s,
  match dropWhile p s with c :: _ => p c = false | [] => True end.
Proof.
  induction s as [|c s IH]; simpl; [exact I|].
  destruct (p c) eqn:E; [exact IH | exact E].
Qed.

Lemma takeWhile_app_stop : forall A (p : A -> bool) a c b,
  Forall (fun x => p x = true) a -> p c = false ->
  takeWhile p (a ++ c :: b) = a /\ dropWhile p (a ++ c :: b) = c :: b.
Proof.
  induction a as [|x a IH]; intros c b Ha Hc; simpl.
  - rewrite Hc; split; reflexivity.
  - inversion Ha as [|? ? Hx Ha']; subst. rewrite Hx.
    destruct (IH c b Ha' Hc) as [-> ->]; split; reflexivity.
Qed.

Lemma takeWhile_twice : forall A (p q : A -> bool) s,
  takeWhile p (takeWhile q s) = takeWhile (fun c => q c && p c) s.
Proof.
  induction s as [|c s IH]; simpl; [reflexivity|].
  destruct (q c); simpl; [|reflexivity].
  destruct (p c); [rewrite IH|]; reflexivity.
Qed.

Lemma notParen_all : forall s,
  noParen s <-> Forall (fun c => negb (isParen c) = true) s.
Proof.
  unfold noParen, isParen; intros s; rewrite Forall_forall; split.
  - intros [Hl Hr] c Hc.
    destruct (N.eqb_spec c lparen) as [->|]; [contradiction|].
    destruct (N.eqb_spec c rparen) as [->|]; [contradiction|reflexivity].
  - intros H; split; intros Hin; apply H in Hin; discriminate Hin.
Qed.

(** ** parseManEntry *)

(** The first element of [split], in terms of [takeWhile]. *)
Lemma split_hd : forall sep s,
  hd [] (split sep s) = takeWhile (fun c => negb (N.eqb c sep)) s.
Proof.
  intros sep s; destruct (split_head sep s) as (p & ps & -> & _ & -> & _).
  reflexivity.
Qed.

(** What the parser returns on a line with a [(]: the text before the first
    [(] without its trailing white space, and the text after it up to the
    next parenthesis of either kind. *)
Lemma parseManEntry_paren : forall head tail,
  ~ In lparen head ->
  parseManEntry (head ++ lparen :: tail)
  = Return {| name := trimEnd head;
              section := takeWhile (fun c => negb (isParen c)) tail |}.
Proof.
  intros head tail Hh; unfold parseManEntry.
  rewrite split_app_sep by exact Hh; simpl.
  destruct (split_head lparen tail) as (p & ps & E & _ & Hp & _).
  rewrite E; simpl. rewrite split_hd, Hp, takeWhile_twice.
  do 2 f_equal. clear. induction tail as [|c t IH]; simpl; [reflexivity|].
  unfold isParen. rewrite negb_orb.
  destruct (negb (c =? lparen)%N && negb (c =? rparen)%N);
    [rewrite IH|]; reflexivity.
Qed.

Lemma parseManEntry_no_paren : forall line,
  ~ In lparen line -> parseManEntry line = Throw TypeError.
Proof.
  intros line H; unfold parseManEntry; rewrite split_no_sep by exact H; reflexivity.
Qed.

(** A line either holds no [(] or splits at its first one. *)
Lemma first_lparen : forall line,
  ~ In lparen line
  \/ exists head tail, line = head ++ lparen :: tail /\ ~ In lparen head.
Proof.
  intros line; destruct (split_head lparen line) as (p & ps & _ & Hp & _ & Hnil & Hcons).
  destruct ps as [|q ps].
  - left; rewrite (Hnil eq_refl); exact Hp.
  - right; destruct Hcons as (t & -> & _); [discriminate|].
    exists p, t; auto.
Qed.

Lemma existsb_not_In : forall c s,
  existsb (N.eqb c) s = false -> ~ In c s.
Proof.
  intros c s H Hin.
  assert (existsb (N.eqb c) s = true) as K
    by (apply existsb_exists; exists c; split; [exact Hin | apply N.eqb_refl]).
  congruence.
Qed.

Lemma noParen_check : forall s,
  existsb isParen s = false -> noParen s.
Proof.
  intros s H; split; intros Hin;
    (assert (existsb isParen s = true) as K
      by (apply existsb_exists; eexists; split; [exact Hin | reflexivity]));
    congruence.
Qed.

(** C1 (as amended).  A line without [(] makes [parseManEntry] fail, with
    the [TypeError] the runtime raises when [split] is read from the missing
    second part: no value is returned, and no error of the parser's own is
    thrown. *)
Theorem parseManEntry_no_paren_TypeError : forall line,
  ~ In lparen line -> parseManEntry line = Throw TypeError.
Proof.
  intros line H; unfold parseManEntry.
  (* [parts] has a single element, so [parts[1]] is [undefined] *)
  rewrite split_no_sep by exact H.
  reflexivity.
Qed.

Lemma parseManEntry_no_paren_TypeError_witness :
  parseManEntry (js "ls - list directory contents") = Throw TypeError.
Proof.
  apply parseManEntry_no_paren_TypeError.
  apply existsb_not_In; reflexivity.
Defined.

(** C1 as stated fails: the line below has no [(], and the failure of the
    parser on it is not a [MalformedEntry] error (nor an error of any kind
    of the specification). *)
Lemma parseManEntry_no_paren_not_MalformedEntry :
  ~ In lparen (js "ls - list directory contents")
  /\ ~ failsWith MalformedEntry
         (parseManEntry (js "ls - list directory contents"))
  /\ parseManEntry (js "") = Throw TypeError.
Proof.
  split; [apply existsb_not_In; reflexivity|].
  split; [|reflexivity].
  intros (e & H & K). vm_compute in H. injection H as <-. discriminate K.
Qed.

Lemma parseManEntry_head_section : forall head sec desc,
  ~ In lparen head -> noParen sec ->
  parseManEntry (head ++ lparen :: sec ++ rparen :: desc)
  = Return {| name := trimEnd head; section := sec |}.
Proof.
  intros head sec desc Hh Hs. rewrite parseManEntry_paren by exact Hh.
  apply notParen_all in Hs.
  destruct (@takeWhile_app_stop _ (fun c => negb (isParen c)) sec rparen desc Hs)
    as [-> _]; reflexivity.
Qed.

(** C5 (as amended).  On a line [head ( section ) description], where
    [head] holds no [(] and [section] no parenthesis, the parser returns
    [head] without its trailing white space (leading white space stays) and
    [section], the text before the first [)]; the example of the
    specification is an instance. *)
Theorem parseManEntry_well_formed :
  (forall head sec desc,
      ~ In lparen head -> noParen sec ->
      parseManEntry (head ++ lparen :: sec ++ rparen :: desc)
      = Return {| name := trimEnd head; section := sec |})
  /\ parseManEntry (js "foo-bar (3) some description")
     = Return {| name := js "foo-bar"; section := js "3" |}.
Proof.
  split; [|reflexivity].
  intros head sec desc Hh Hs.
  rewrite parseManEntry_paren by exact Hh.
  apply notParen_all in Hs.
  assert (negb (isParen rparen) = false) as Hr by reflexivity.
  destruct (@takeWhile_app_stop _ (fun c => negb (isParen c))
                                sec rparen desc Hs Hr) as [Htake _].
  rewrite Htake; reflexivity.
Qed.

Lemma parseManEntry_well_formed_witness :
  parseManEntry (js "git-annotate " ++ lparen :: js "1" ++ rparen :: js " - annotate (file) lines")
  = Return {| name := trimEnd (js "git-annotate "); section := js "1" |}.
Proof.
  apply (proj1 parseManEntry_well_formed).
  - apply existsb_not_In; reflexivity.
  - apply noParen_check; reflexivity.
Defined.

(** C5 as stated fails: white space before the name is not removed. *)
Lemma parseManEntry_keeps_leading_space :
  parseManEntry (js "  foo-bar (3) some description")
  = Return {| name := js "  foo-bar"; section := js "3" |}
  /\ trim (js "  foo-bar ") = js "foo-bar"
  /\ js "  foo-bar" <> trim (js "  foo-bar ").
Proof. repeat split; vm_compute; discriminate. Qed.

(** C4 (as amended).  An entry whose name holds no parenthesis and does not
    end in white space, and whose section holds no parenthesis, is what the
    parser returns on the path [<name> (<section>)] of its address
    [man:<name> (<section>)]. *)
Theorem address_round_trip : forall e,
  noParen (name e) -> endsWithWhiteSpace (name e) = false ->
  noParen (section e) ->
  formatAddress e = js "man:" ++ addressPath e
  /\ parseManEntry (addressPath e) = Return e.
Proof.
  intros [n s] [Hn _] Hw Hs; simpl in *. split; [reflexivity|].
  unfold addressPath; cbn [name section].
  change (js " (") with [space; lparen]; change (js ")") with [rparen].
  replace (n ++ [space; lparen] ++ s ++ [rparen])
    with ((n ++ [space]) ++ lparen :: s ++ rparen :: [])
    by (rewrite <- app_assoc; reflexivity).
  rewrite parseManEntry_head_section.
  - rewrite trimEnd_snoc_white by reflexivity.
    rewrite trimEnd_fixed by exact Hw; reflexivity.
  - intros H; apply in_app_or in H; destruct H as [H|[H|[]]];
      [exact (Hn H) | discriminate H].
  - exact Hs.
Qed.

Lemma address_round_trip_witness :
  parseManEntry (addressPath {| name := js "git-annotate"; section := js "1" |})
  = Return {| name := js "git-annotate"; section := js "1" |}.
Proof.
  apply (address_round_trip {| name := js "git-annotate"; section := js "1" |}).
  - apply noParen_check; reflexivity.
  - reflexivity.
  - apply noParen_check; reflexivity.
Defined.

(** C4 as stated fails.  The names below hold no parenthesis, yet: parsing
    the whole address keeps the scheme in the name; a name that ends in
    white space loses it; a section with a parenthesis is cut there. *)
Lemma address_round_trip_fails :
  let e0 := {| name := js "ls"; section := js "1" |} in
  let e1 := {| name := js "ls "; section := js "1" |} in
  let e2 := {| name := js "ls"; section := js "1)" |} in
  (noParen (name e0)
   /\ parseManEntry (formatAddress e0)
      = Return {| name := js "man:ls"; section := js "1" |}
   /\ parseManEntry (formatAddress e0) <> Return e0)
  /\ (noParen (name e1)
      /\ parseManEntry (addressPath e1) = Return e0
      /\ parseManEntry (addressPath e1) <> Return e1)
  /\ (noParen (name e2)
      /\ parseManEntry (addressPath e2) = Return e0
      /\ parseManEntry (addressPath e2) <> Return e2).
Proof.
  cbv zeta; repeat split;
    try (apply existsb_not_In; reflexivity);
    vm_compute; discriminate.
Qed.

(** C6 (as amended).  An entry the parser returns has a name without [(]
    and without trailing white space, namely the text before the first [(]
    of the line, trimmed at its end; its section holds no parenthesis and is
    the text that follows that [(] up to the next parenthesis of either kind
    or to the end of the line. *)
Theorem parseManEntry_invariant : forall line e,
  parseManEntry line = Return e ->
  ~ In lparen (name e)
  /\ endsWithWhiteSpace (name e) = false
  /\ noParen (section e)
  /\ exists head tail rest,
       line = head ++ lparen :: tail
       /\ ~ In lparen head
       /\ name e = trimEnd head
       /\ tail = section e ++ rest
       /\ match rest with c :: _ => isParen c = true | [] => True end.
Proof.
  intros line e H.
  destruct (first_lparen line) as [Hn | (head & tail & -> & Hh)].
  - rewrite parseManEntry_no_paren in H by exact Hn; discriminate H.
  - rewrite parseManEntry_paren in H by exact Hh.
    injection H as <-; cbn [name section].
    split; [intros Hin; apply Hh; exact (trimEnd_incl _ _ Hin)|].
    split; [apply trimEnd_clean|].
    split; [apply notParen_all, takeWhile_all|].
    exists head, tail, (dropWhile (fun c => negb (isParen c)) tail).
    repeat split; auto.
    + symmetry; apply takeWhile_dropWhile.
    + pose proof (dropWhile_head (fun c => negb (isParen c)) tail) as K.
      destruct (dropWhile _ tail); [exact I|].
      apply negb_false_iff; exact K.
Qed.

Lemma parseManEntry_invariant_witness :
  ~ In lparen (js "git-annotate")
  /\ endsWithWhiteSpace (js "git-annotate") = false
  /\ noParen (js "1").
Proof.
  pose proof (@parseManEntry_invariant
                (js "git-annotate (1) description")
                {| name := js "git-annotate"; section := js "1" |}
                eq_refl) as (H1 & H2 & H3 & _).
  exact (conj H1 (conj H2 H3)).
Defined.

(** C6 as stated fails: the name can be empty, it can hold a [)], and the
    section stops at a second [(], or at the end of a line without [)]. *)
Lemma parseManEntry_invariant_fails :
  (parseManEntry (js "(1) intro")
   = Return {| name := []; section := js "1" |})
  /\ (parseManEntry (js "a) (1) x")
      = Return {| name := js "a)"; section := js "1" |}
      /\ In rparen (js "a)"))
  /\ (parseManEntry (js "printf (3(p)) x")
      = Return {| name := js "printf"; section := js "3" |}
      /\ betweenParens (js "printf (3(p)) x") = Some (js "3(p")
      /\ js "3" <> js "3(p")
  /\ (parseManEntry (js "ls (1")
      = Return {| name := js "ls"; section := js "1" |}
      /\ betweenParens (js "ls (1") = None).
Proof.
  repeat split; try (vm_compute; discriminate).
  right; left; reflexivity.
Qed.

(** ** The regular expressions *)

Section Greedy.

Variable cls : charclass.
Variable k : jsstring -> option nat.

(** The continuation cannot start on a code unit of the class, so giving
    code units back never helps. *)
Hypothesis blocked : forall c s, in_class cls c = true -> k (c :: s) = None.

Lemma greedy_blocked : forall s,
  greedy cls k s
  = option_map (Nat.add (length (takeWhile (in_class cls) s)))
               (k (dropWhile (in_class cls) s)).
Proof.
  induction s as [|c s IH]; simpl.
  - destruct (k []); reflexivity.
  - destruct (in_class cls c) eqn:E.
    + rewrite IH. destruct (k (dropWhile (in_class cls) s)); simpl.
      * reflexivity.
      * apply blocked; exact E.
    + destruct (k (c :: s)); reflexivity.
Qed.

End Greedy.

Lemma dropWhile_nil : forall A (p : A -> bool) s,
  dropWhile p s = [] <-> forallb p s = true.
Proof.
  induction s as [|c s IH]; simpl; [tauto|].
  destruct (p c); simpl; [exact IH | split; discriminate].
Qed.

Ltac class_iff :=
  unfold in_class; cbn [existsb app upper lower digit word one fst snd wordOrHyphen];
  rewrite ?orb_true_iff, ?andb_true_iff, ?N.leb_le;
  unfold headingFirst, headingNext, specHeadingNext, isWordOrHyphen,
    isHeadingMark, isHeadingSeparator, isUpper, isLower, isDigit,
    lparen, rparen;
  lia.

Lemma headingClass1_iff : forall c,
  in_class headingClass1 c = true <-> headingFirst c.
Proof. intros c; unfold headingClass1; class_iff. Qed.

Lemma headingClass2_iff : forall c,
  in_class headingClass2 c = true <-> headingNext c.
Proof. intros c; unfold headingClass2; class_iff. Qed.

Lemma search_bol : forall r s idx,
  search (Bol :: r) (S idx) s = None.
Proof.
  induction s as [|c s IH]; intros idx; simpl; [reflexivity | apply IH].
Qed.

(** The heading test, computed without the matcher. *)
Lemma isHeading_eq : forall l,
  isHeading l
  = match l with
    | c :: d :: rest =>
        in_class headingClass1 c && in_class headingClass2 d
        && forallb (in_class headingClass2) rest
    | _ => false
    end.
Proof.
  intros l; unfold isHeading, test, headingRegex.
  destruct l as [|c l]; [reflexivity|].
  cbn [search Nat.eqb matchHere]. rewrite search_bol.
  destruct (in_class headingClass1 c); [|destruct l; reflexivity].
  destruct l as [|d rest]; [reflexivity|].
  destruct (in_class headingClass2 d); [|reflexivity].
  rewrite greedy_blocked by reflexivity.
  cbn [andb]. destruct (forallb (in_class headingClass2) rest) eqn:E.
  - apply dropWhile_nil in E; rewrite E; reflexivity.
  - destruct (dropWhile (in_class headingClass2) rest) eqn:D; [|reflexivity].
    apply dropWhile_nil in D; congruence.
Qed.

Lemma isHeading_iff : forall l,
  isHeading l = true
  <-> exists c rest,
        l = c :: rest /\ headingFirst c /\ rest <> [] /\ Forall headingNext rest.
Proof.
  intros l; rewrite isHeading_eq; split.
  - destruct l as [|c [|d rest]]; try discriminate.
    rewrite !andb_true_iff, forallb_forall.
    intros [[H1 H2] H3]. exists c, (d :: rest).
    split; [reflexivity|]. split; [apply headingClass1_iff; exact H1|].
    split; [discriminate|]. constructor; [apply headingClass2_iff; exact H2|].
    apply Forall_forall; intros x Hx; apply headingClass2_iff, H3, Hx.
  - intros (c & rest & -> & H1 & Hne & H2).
    destruct rest as [|d rest]; [congruence|].
    inversion H2 as [|? ? Hd Hrest]; subst.
    rewrite !andb_true_iff, forallb_forall. repeat split.
    + apply headingClass1_iff; exact H1.
    + apply headingClass2_iff; exact Hd.
    + intros x Hx; apply headingClass2_iff.
      rewrite Forall_forall in Hrest; exact (Hrest x Hx).
Qed.

(** C3 (as amended).  A line is a heading for the analyzer exactly when
    its first character is an uppercase letter, double quote, underscore,
    period, colon or apostrophe, every later character is a letter of
    either case, one of those marks, a space, a comma or a hyphen, and
    there is at least one later character (two characters in all). *)
Theorem isHeading_characterisation : forall l,
  isHeading l = true
  <-> exists c rest,
        l = c :: rest /\ headingFirst c
        /\ Forall headingNext rest /\ 2 <= length l.
Proof.
  intros l; rewrite isHeading_iff; split.
  - intros (c & rest & -> & H1 & Hne & H2); exists c, rest.
    repeat split; auto. destruct rest; [congruence | simpl; lia].
  - intros (c & rest & -> & H1 & H2 & Hlen); exists c, rest.
    repeat split; auto. intros ->; simpl in Hlen; lia.
Qed.

(** C3 as stated fails in both directions: a line of one uppercase letter
    fits the stated rule and is no heading for the analyzer, and a line
    with lowercase letters after the first is a heading for the analyzer
    and does not fit the stated rule. *)
Lemma isHeading_not_specHeading :
  (specHeading (js "A") /\ isHeading (js "A") = false)
  /\ (isHeading (js "Name") = true /\ ~ specHeading (js "Name")).
Proof.
  split; split; try reflexivity.
  - exists 65%N, []; repeat split; [left; unfold isUpper; lia | constructor].
  - intros (c & rest & E & _ & H). injection E as <- <-.
    inversion H as [|? ? Ha _]; subst.
    unfold specHeadingNext, isUpper, isHeadingMark, isHeadingSeparator in Ha.
    lia.
Qed.

(** ** provideFoldingRanges *)

Lemma lineNumbers_app : forall n m a,
  lineNumbers a (n + m) = lineNumbers a n ++ lineNumbers (a + Z.of_nat n) m.
Proof.
  induction n as [|n IH]; intros m a.
  - simpl; rewrite Z.add_0_r; reflexivity.
  - cbn [Nat.add lineNumbers app]. rewrite IH. do 3 f_equal. lia.
Qed.

Lemma lineNumbers_In : forall n a x,
  In x (lineNumbers a n) <-> (a <= x < a + Z.of_nat n)%Z.
Proof.
  induction n as [|n IH]; intros a x.
  - simpl; lia.
  - cbn [lineNumbers In]. rewrite IH. lia.
Qed.

Lemma lineNumbers_NoDup : forall n a, NoDup (lineNumbers a n).
Proof.
  induction n as [|n IH]; intros a; simpl; constructor; [|apply IH].
  rewrite lineNumbers_In; lia.
Qed.

Lemma linesFromTo_In : forall a b x,
  In x (linesFromTo a b) <-> (a <= x <= b)%Z.
Proof. intros a b x; unfold linesFromTo; rewrite lineNumbers_In; lia. Qed.

Lemma linesFromTo_app : forall a e b,
  (a <= e + 1)%Z -> (e <= b)%Z ->
  linesFromTo a e ++ linesFromTo (e + 1) b = linesFromTo a b.
Proof.
  intros a e b H1 H2; unfold linesFromTo.
  replace (Z.to_nat (b - a + 1))
    with (Z.to_nat (e - a + 1) + Z.to_nat (b - (e + 1) + 1)) by lia.
  rewrite lineNumbers_app. do 2 f_equal. lia.
Qed.

Lemma chain_le : forall a rs b, chain a rs b -> (a <= b)%Z.
Proof. induction 1; lia. Qed.

Lemma chain_snoc : forall a rs b e,
  chain a rs b -> (b <= e)%Z -> chain a (rs ++ [mkFold b e]) (e + 1).
Proof.
  induction 1 as [a | a e' rs b Hle Hc IH]; intros He; simpl.
  - constructor; [exact He | constructor].
  - constructor; [exact Hle | apply IH; exact He].
Qed.

Lemma chain_ordered : forall a rs b,
  chain a rs b -> Forall (fun r => (fold_start r <= fold_end r)%Z) rs.
Proof. induction 1; constructor; assumption. Qed.

Lemma chain_first : forall a rs b r,
  chain a rs b -> hd_error rs = Some r -> fold_start r = a.
Proof. intros a rs b r H; destruct H; simpl; intros E; inversion E; reflexivity. Qed.

Lemma chain_last : forall a rs b r,
  chain a rs b -> (fold_end (last rs r) + 1 = b)%Z \/ rs = [].
Proof.
  induction 1 as [a | a e rs b Hle Hc IH]; [right; reflexivity | left].
  destruct IH as [IH | ->].
  - destruct rs as [|r' rs]; [inversion Hc; subst; reflexivity | exact IH].
  - inversion Hc; subst; reflexivity.
Qed.

Lemma chain_adjacent : forall a rs b, chain a rs b -> adjacent rs.
Proof.
  induction 1 as [a | a e rs b Hle Hc IH]; intros i r r' Hi Hi'.
  - destruct i; discriminate Hi.
  - destruct i as [|i]; simpl in Hi, Hi'.
    + injection Hi as <-. inversion Hc; subst; simpl in Hi'; [discriminate|].
      injection Hi' as <-; reflexivity.
    + exact (IH i r r' Hi Hi').
Qed.

Lemma chain_cover : forall a rs b,
  chain a rs b -> concat (map regionLines rs) = linesFromTo a (b - 1).
Proof.
  induction 1 as [a | a e rs b Hle Hc IH]; simpl.
  - unfold linesFromTo. replace (Z.to_nat (a - 1 - a + 1)) with 0 by lia.
    reflexivity.
  - rewrite IH. unfold regionLines; cbn [fold_start fold_end].
    apply linesFromTo_app; [lia|]. apply chain_le in Hc; lia.
Qed.

Lemma headingAt_nth : forall lines i,
  headingAt lines i <-> isHeading (nth i lines []) = true.
Proof.
  intros lines i; unfold headingAt; split.
  - intros (l & Hl & H). rewrite (nth_error_nth _ _ _ Hl); exact H.
  - intros H. destruct (nth_error lines i) as [l|] eqn:E.
    + exists l; split; [reflexivity|].
      rewrite (nth_error_nth _ _ _ E) in H; exact H.
    + apply nth_error_None in E. rewrite nth_overflow in H by exact E.
      discriminate H.
Qed.

Lemma headingAt_bound : forall lines i,
  headingAt lines i -> i < length lines.
Proof.
  intros lines i (l & Hl & _). apply nth_error_Some; congruence.
Qed.

Section FoldLoop.

Variable lines : list jsstring.

Lemma foldStep_heading : forall st i,
  isHeading (nth i lines []) = true ->
  foldStep lines st i
  = {| result := result st ++ [mkFold (foldStart st) (Z.of_nat i - 1)];
       foldStart := Z.of_nat i |}.
Proof. intros st i H; unfold foldStep; rewrite H; reflexivity. Qed.

Lemma foldStep_body : forall st i,
  isHeading (nth i lines []) = false -> foldStep lines st i = st.
Proof. intros st i H; unfold foldStep; rewrite H; reflexivity. Qed.

Lemma fold_body_lines : forall l st,
  (forall i, In i l -> isHeading (nth i lines []) = false) ->
  fold_left (foldStep lines) l st = st.
Proof.
  induction l as [|i l IH]; intros st H; simpl; [reflexivity|].
  rewrite foldStep_body by (apply H; left; reflexivity).
  apply IH; intros j Hj; apply H; right; exact Hj.
Qed.

(** After the iterations [3 .. 2 + m]: [foldStart] is the last heading
    seen (or 2), and the regions closed so far cover the lines from 2 up
    to the one before it. *)
Lemma loop_invariant : forall m,
  let st := fold_left (foldStep lines) (seq 3 m)
                      {| result := []; foldStart := 2 |} in
  exists k,
    foldStart st = Z.of_nat k
    /\ chain 2 (result st) (Z.of_nat k)
    /\ (k = 2 \/ (3 <= k < 3 + m /\ isHeading (nth k lines []) = true))
    /\ (forall i, k < i < 3 + m -> 3 <= i ->
                  isHeading (nth i lines []) = false).
Proof.
  induction m as [|m IH]; cbv zeta.
  - exists 2; simpl; repeat split; [constructor | left; reflexivity | lia].
  - rewrite seq_S, fold_left_app; cbn [fold_left].
    destruct IH as (k & Hk & Hc & Hlast & Hafter).
    destruct (isHeading (nth (3 + m) lines [])) eqn:E.
    + rewrite foldStep_heading by exact E. exists (3 + m).
      cbn [result foldStart]. repeat split; try lia.
      * rewrite Hk.
        replace (Z.of_nat (3 + m)) with (Z.of_nat (3 + m) - 1 + 1)%Z at 2
          by lia.
        apply chain_snoc; [exact Hc | lia].
      * right; split; [lia | exact E].
    + rewrite foldStep_body by exact E. exists k.
      repeat split; auto; [destruct Hlast as [->|[? ?]]; [left|right]; auto; split; [lia|auto] |].
      intros i Hi H3. destruct (Nat.eq_dec i (3 + m)) as [->|Hne];
        [exact E | apply Hafter; lia].
Qed.

Lemma foldLoop_spec :
  exists k,
    foldStart (foldLoop lines) = Z.of_nat k
    /\ chain 2 (result (foldLoop lines)) (Z.of_nat k)
    /\ lastHeading lines k.
Proof.
  destruct (loop_invariant (length lines - 3)) as (k & Hk & Hc & Hlast & Hafter).
  exists k; repeat split; auto.
  - intros i Hi H3 Hh. pose proof (headingAt_bound Hh) as Hb.
    apply headingAt_nth in Hh. rewrite Hafter in Hh by lia. discriminate Hh.
  - destruct Hlast as [->|[Hr Hh]]; [left; reflexivity | right].
    split; [lia | apply headingAt_nth; exact Hh].
Qed.

Lemma lastHeading_unique : forall k k',
  lastHeading lines k -> lastHeading lines k' -> k = k'.
Proof.
  intros k k' [Ha Hk] [Ha' Hk'].
  destruct (Nat.lt_trichotomy k k') as [Hlt | [Heq | Hgt]]; [|exact Heq|].
  - destruct Hk' as [->|[H3 Hh]]; [destruct Hk as [->|[? _]]; lia|].
    exfalso; exact (Ha k' Hlt H3 Hh).
  - destruct Hk as [->|[H3 Hh]]; [destruct Hk' as [->|[? _]]; lia|].
    exfalso; exact (Ha' k Hgt H3 Hh).
Qed.

End FoldLoop.

Lemma not_headingAt_nth : forall lines i,
  ~ headingAt lines i -> isHeading (nth i lines []) = false.
Proof.
  intros lines i H. destruct (isHeading (nth i lines [])) eqn:E; [|reflexivity].
  exfalso; apply H, headingAt_nth; exact E.
Qed.

(** A check that decides, on a given page, that no line after index [k] is
    a heading. *)
Lemma no_heading_after : forall lines k,
  forallb (fun l => negb (isHeading l)) (skipn (S k) lines) = true ->
  forall i, k < i -> ~ headingAt lines i.
Proof.
  intros lines k H i Hi (l & Hl & Hh).
  rewrite forallb_forall in H.
  assert (In l (skipn (S k) lines)) as Hin.
  { apply nth_error_In with (n := i - S k).
    rewrite nth_error_skipn. replace (S k + (i - S k)) with i by lia.
    exact Hl. }
  apply H in Hin. rewrite Hh in Hin. discriminate Hin.
Qed.

(** The outcome of the analyzer in terms of the last heading [k]. *)
Lemma foldingRanges_outcome : forall lines,
  let n := Z.of_nat (length lines) in
  exists k pre,
    lastHeading lines k
    /\ chain 2 pre (Z.of_nat k)
    /\ foldLoop lines = {| result := pre; foldStart := Z.of_nat k |}
    /\ foldingRangesOfLines lines
       = if (Z.of_nat k >=? n - 4)%Z then Throw (Thrown invalidManPage)
         else Return (pre ++ [mkFold (Z.of_nat k) (n - 4)]).
Proof.
  intros lines n. destruct (foldLoop_spec lines) as (k & Hk & Hc & Hl).
  exists k, (result (foldLoop lines)).
  split; [exact Hl|]. split; [exact Hc|]. split.
  - rewrite <- Hk; destruct (foldLoop lines); reflexivity.
  - unfold foldingRangesOfLines; rewrite Hk; reflexivity.
Qed.

Lemma foldingRanges_chain : forall lines rs,
  foldingRangesOfLines lines = Return rs ->
  rs <> [] /\ chain 2 rs (Z.of_nat (length lines) - 4 + 1).
Proof.
  intros lines rs H.
  destruct (foldingRanges_outcome lines) as (k & pre & _ & Hc & _ & E).
  rewrite E in H.
  destruct (Z.geb_spec (Z.of_nat k) (Z.of_nat (length lines) - 4)) as [|Hlt];
    [discriminate H|].
  injection H as <-. split.
  - intros K; apply app_eq_nil in K; destruct K as [_ K]; discriminate K.
  - apply chain_snoc; [exact Hc | lia].
Qed.

(** The page of the specification's example: the headings among the lines
    of index 3 and more are those of index 3 and 7. *)
Lemma foldingRanges_3_7 : forall lines,
  (forall i, 3 <= i -> (headingAt lines i <-> i = 3 \/ i = 7)) ->
  foldLoop lines
  = {| result := [mkFold 2 2; mkFold 3 6]; foldStart := 7 |}.
Proof.
  intros lines H.
  assert (7 < length lines) as Hlen
    by (apply headingAt_bound, H; [lia | right; reflexivity]).
  assert (forall i, 3 <= i -> i <> 3 -> i <> 7 ->
                    isHeading (nth i lines []) = false) as Hbody.
  { intros i H3 Hn3 Hn7. apply not_headingAt_nth. rewrite H by exact H3. lia. }
  assert (forall i, i = 3 \/ i = 7 -> isHeading (nth i lines []) = true) as Hhead.
  { intros i Hi. apply headingAt_nth, H; [lia | exact Hi]. }
  unfold foldLoop.
  replace (length lines - 3) with (5 + (length lines - 8)) by lia.
  rewrite seq_app, fold_left_app. cbn [seq fold_left Nat.add].
  rewrite (@foldStep_heading lines _ 3) by (apply Hhead; left; reflexivity).
  rewrite (@foldStep_body lines _ 4), (@foldStep_body lines _ 5),
    (@foldStep_body lines _ 6) by (apply Hbody; lia).
  rewrite (@foldStep_heading lines _ 7) by (apply Hhead; right; reflexivity).
  rewrite fold_body_lines; [reflexivity|].
  intros i Hi; apply in_seq in Hi; apply Hbody; lia.
Qed.

(** C8.  When the analyzer succeeds, its regions are non-empty intervals,
    the first starts on line 2, each next one starts on the line after the
    end of the previous one, the last ends on line [n - 4], and together
    they run through the lines 2 to [n - 4], each once; on a page of [n]
    lines whose headings (from index 3 on) are the lines 3 and 7 the
    regions are [2,2], [3,6] and [7, n-4], and they are produced as soon as
    the page has 12 lines. *)
Theorem foldingRanges_partition :
  (forall document rs,
      provideFoldingRanges document = Return rs ->
      let n := Z.of_nat (length (split newline document)) in
      (exists r, hd_error rs = Some r /\ fold_start r = 2%Z)
      /\ (forall d, fold_end (last rs d) = (n - 4)%Z)
      /\ Forall (fun r => (fold_start r <= fold_end r)%Z) rs
      /\ adjacent rs
      /\ concat (map regionLines rs) = linesFromTo 2 (n - 4)
      /\ NoDup (concat (map regionLines rs)))
  /\ (forall document,
         let lines := split newline document in
         let n := Z.of_nat (length lines) in
         (forall i, 3 <= i -> (headingAt lines i <-> i = 3 \/ i = 7)) ->
         (forall rs, provideFoldingRanges document = Return rs ->
                     rs = [mkFold 2 2; mkFold 3 6; mkFold 7 (n - 4)])
         /\ (12 <= length lines ->
             provideFoldingRanges document
             = Return [mkFold 2 2; mkFold 3 6; mkFold 7 (n - 4)])).
Proof.
  split.
  - intros document rs H n. apply foldingRanges_chain in H.
    destruct H as [Hne Hc]. fold n in Hc.
    assert (concat (map regionLines rs) = linesFromTo 2 (n - 4)) as Hcover.
    { rewrite (chain_cover Hc). f_equal; lia. }
    repeat split.
    + destruct rs as [|r rs]; [congruence|].
      exists r; split; [reflexivity | exact (chain_first Hc eq_refl)].
    + intros d. destruct (chain_last d Hc) as [K|K]; [lia | congruence].
    + exact (chain_ordered Hc).
    + exact (chain_adjacent Hc).
    + exact Hcover.
    + rewrite Hcover; apply lineNumbers_NoDup.
  - intros document lines n H.
    assert (provideFoldingRanges document
            = if (7 >=? n - 4)%Z then Throw (Thrown invalidManPage)
              else Return [mkFold 2 2; mkFold 3 6; mkFold 7 (n - 4)]) as E.
    { unfold provideFoldingRanges, foldingRangesOfLines. fold lines.
      rewrite (foldingRanges_3_7 H). reflexivity. }
    rewrite E. split.
    + intros rs Hrs. destruct (7 >=? n - 4)%Z; [discriminate Hrs|].
      injection Hrs as <-; reflexivity.
    + intros Hlen. destruct (Z.geb_spec 7 (n - 4)) as [Hge|]; [|reflexivity].
      unfold n in Hge; lia.
Qed.

(** A check that decides, on a given page, that the headings from index 3
    on are the lines 3 and 7. *)
Lemma headings_3_7_check : forall lines : list jsstring,
  forallb (fun i => Bool.eqb (isHeading (nth i lines []))
                             ((i =? 3) || (i =? 7)))
          (seq 3 (length lines - 3)) = true ->
  7 < length lines ->
  forall i, 3 <= i -> (headingAt lines i <-> i = 3 \/ i = 7).
Proof.
  intros lines H Hlen i Hi. rewrite forallb_forall in H.
  rewrite headingAt_nth.
  destruct (Nat.lt_ge_cases i (length lines)) as [Hlt|Hge].
  - assert (In i (seq 3 (length lines - 3))) as Hin by (apply in_seq; lia).
    apply H in Hin; cbv beta in Hin; apply eqb_prop in Hin. rewrite Hin.
    rewrite orb_true_iff, !Nat.eqb_eq. reflexivity.
  - rewrite nth_overflow by exact Hge. split; [discriminate | lia].
Qed.

Lemma foldingRanges_partition_witness :
  let document := page ["TITLE(1)"; ""; "first"; "NAME"; " a"; " b"; "";
                        "SYNOPSIS"; " c"; ""; "footer 1.0"; ""]%string in
  concat (map regionLines [mkFold 2 2; mkFold 3 6; mkFold 7 8])
  = linesFromTo 2 8
  /\ provideFoldingRanges document
     = Return [mkFold 2 2; mkFold 3 6; mkFold 7 8].
Proof.
  intros document. split.
  - apply (proj1 foldingRanges_partition document
                 [mkFold 2 2; mkFold 3 6; mkFold 7 8] eq_refl).
  - apply (proj2 foldingRanges_partition document).
    + apply headings_3_7_check; [reflexivity | vm_compute; lia].
    + vm_compute; lia.
Defined.

(** The loop leaves its state alone on a page without heading after
    line 2. *)
Lemma foldLoop_no_heading : forall lines,
  (forall i, 3 <= i -> ~ headingAt lines i) ->
  foldLoop lines = {| result := []; foldStart := 2 |}.
Proof.
  intros lines H; unfold foldLoop. apply fold_body_lines.
  intros i Hi; apply in_seq in Hi. apply not_headingAt_nth, H; lia.
Qed.

(** C2 (as amended).  On a page without heading-classified line at index 3
    or beyond, the analyzer fails with its invalid-page error when the page
    has at most 6 lines, and otherwise returns the single region
    [2, n - 4]. *)
Theorem foldingRanges_no_heading : forall document,
  let lines := split newline document in
  let n := Z.of_nat (length lines) in
  (forall i, 3 <= i -> ~ headingAt lines i) ->
  (length lines <= 6 ->
   provideFoldingRanges document = Throw (Thrown invalidManPage)
   /\ failsWith InvalidPageStructure (provideFoldingRanges document))
  /\ (7 <= length lines ->
      provideFoldingRanges document = Return [mkFold 2 (n - 4)]).
Proof.
  intros document lines n H.
  assert (provideFoldingRanges document
          = if (2 >=? n - 4)%Z then Throw (Thrown invalidManPage)
            else Return [mkFold 2 (n - 4)]) as E.
  { unfold provideFoldingRanges, foldingRangesOfLines. fold lines.
    rewrite (foldLoop_no_heading H). reflexivity. }
  rewrite E. destruct (Z.geb_spec 2 (n - 4)) as [Hge|Hlt]; unfold n in *.
  - split; [|lia]. intros _. split; [reflexivity|].
    eexists; split; reflexivity.
  - split; [lia | reflexivity].
Qed.

Lemma foldingRanges_no_heading_witness :
  provideFoldingRanges
    (page ["LS(1)"; ""; "NAME"; "       ls - list directory contents"]%string)
  = Throw (Thrown invalidManPage).
Proof.
  apply (foldingRanges_no_heading
           (page ["LS(1)"; ""; "NAME";
                  "       ls - list directory contents"]%string)).
  - apply no_heading_after; reflexivity.
  - vm_compute; lia.
Defined.

(** C2 as stated fails: a page of seven lines, none of them a heading from
    index 3 on, gets the region [2, 3] and no error. *)
Lemma foldingRanges_no_heading_returns :
  let document :=
    page ["LS(1)             User Commands             LS(1)"; "";
          "NAME"; "       ls - list directory contents"; "";
          "GNU coreutils 9.4                           LS(1)"; ""]%string in
  (forall i, 3 <= i -> ~ headingAt (split newline document) i)
  /\ provideFoldingRanges document = Return [mkFold 2 3]
  /\ ~ failsWith InvalidPageStructure (provideFoldingRanges document).
Proof.
  intros document. split; [|split].
  - intros i Hi; apply no_heading_after with (k := 2); [reflexivity | lia].
  - reflexivity.
  - intros (e & H & _). vm_compute in H. discriminate H.
Qed.

(** C10.  Every page has a last heading index [k] (the greatest index of a
    heading among the lines 3 and beyond, 2 without one); the analyzer
    throws its invalid-page error exactly when [k >= n - 4] and returns
    regions otherwise; so a heading among the last four lines, with no
    heading after it, makes it throw whatever comes before. *)
Theorem foldingRanges_fails_iff : forall document,
  let lines := split newline document in
  let n := Z.of_nat (length lines) in
  (exists k, lastHeading lines k)
  /\ (forall k, lastHeading lines k ->
        (provideFoldingRanges document = Throw (Thrown invalidManPage)
         <-> (Z.of_nat k >= n - 4)%Z)
        /\ ((exists e, provideFoldingRanges document = Throw e)
            <-> (Z.of_nat k >= n - 4)%Z)
        /\ ((exists rs, provideFoldingRanges document = Return rs)
            <-> (Z.of_nat k < n - 4)%Z))
  /\ (forall k, 3 <= k -> (n - 4 <= Z.of_nat k)%Z ->
        headingAt lines k ->
        (forall i, k < i -> ~ headingAt lines i) ->
        provideFoldingRanges document = Throw (Thrown invalidManPage)).
Proof.
  intros document lines n.
  destruct (foldingRanges_outcome lines) as (k0 & pre & Hl0 & _ & _ & E).
  fold n in E. change (foldingRangesOfLines lines)
    with (provideFoldingRanges document) in E.
  assert (forall k, lastHeading lines k ->
            (provideFoldingRanges document = Throw (Thrown invalidManPage)
             <-> (Z.of_nat k >= n - 4)%Z)
            /\ ((exists e, provideFoldingRanges document = Throw e)
                <-> (Z.of_nat k >= n - 4)%Z)
            /\ ((exists rs, provideFoldingRanges document = Return rs)
                <-> (Z.of_nat k < n - 4)%Z)) as Hiff.
  { intros k Hk. rewrite (lastHeading_unique Hk Hl0), E.
    destruct (Z.geb_spec (Z.of_nat k0) (n - 4)) as [Hge|Hlt].
    - split; [|split]; split; try lia; try reflexivity.
      + intros _; eexists; reflexivity.
      + intros (rs & K); discriminate K.
    - split; [|split]; split; try lia; try discriminate.
      + intros (e & K); discriminate K.
      + intros _; eexists; reflexivity. }
  split; [exists k0; exact Hl0|]. split; [exact Hiff|].
  intros k H3 Hk Hh Hafter.
  apply (Hiff k); [|lia].
  split; [intros i Hi _; apply Hafter; exact Hi | right; auto].
Qed.

Lemma foldingRanges_fails_iff_witness :
  let document :=
    page ["TITLE(1)"; ""; "NAME"; "  a"; "SYNOPSIS"; "  b"; "";
          "FOOTER LINE"; ""]%string in
  provideFoldingRanges document = Throw (Thrown invalidManPage).
Proof.
  intros document.
  apply (proj2 (proj2 (foldingRanges_fails_iff document)) 7).
  - lia.
  - apply Z.leb_le; reflexivity.
  - eexists; split; reflexivity.
  - apply no_heading_after; reflexivity.
Defined.

(** ** provideDocumentLinks *)

Lemma lower_iff : forall c, in_class lower c = true <-> isLower c.
Proof. intros c; class_iff. Qed.

Lemma digit_iff : forall c, in_class digit c = true <-> isDigit c.
Proof. intros c; class_iff. Qed.

Lemma wordOrHyphen_iff : forall c,
  in_class wordOrHyphen c = true <-> isWordOrHyphen c.
Proof. intros c; class_iff. Qed.

Lemma one_iff : forall x c, in_class (one x) c = true <-> c = x.
Proof. intros x c; class_iff. Qed.

Lemma lower_word : forall c,
  in_class lower c = true -> in_class wordOrHyphen c = true.
Proof.
  intros c H; apply wordOrHyphen_iff; apply lower_iff in H.
  right; left; exact H.
Qed.

Lemma word_not_lparen : forall c,
  in_class wordOrHyphen c = true -> in_class (one lparen) c = false.
Proof.
  intros c H. destruct (in_class (one lparen) c) eqn:E; [|reflexivity].
  apply one_iff in E; apply wordOrHyphen_iff in H; subst c.
  unfold isWordOrHyphen, isUpper, isLower, isDigit, lparen in H; lia.
Qed.

(** The closing part [\(\d\)] of the pattern. *)
Lemma linkClose_iff : forall s n,
  matchHere linkClose false s = Some n
  <-> n = 3 /\ exists d rest, s = lparen :: d :: rparen :: rest /\ isDigit d.
Proof.
  intros s n; unfold linkClose; split.
  - destruct s as [|p [|q [|r rest]]]; cbn [matchHere];
      try discriminate;
      destruct (in_class (one lparen) p) eqn:Ep; try discriminate;
      destruct (in_class digit q) eqn:Eq; try discriminate;
      destruct (in_class (one rparen) r) eqn:Er; try discriminate.
    cbn [option_map]; intros H; injection H as <-.
    apply one_iff in Ep, Er; apply digit_iff in Eq; subst.
    split; [reflexivity | exists q, rest; auto].
  - intros (-> & d & rest & -> & Hd). apply digit_iff in Hd.
    cbn [matchHere]. rewrite Hd.
    replace (in_class (one lparen) lparen) with true
      by (symmetry; apply one_iff; reflexivity).
    replace (in_class (one rparen) rparen) with true
      by (symmetry; apply one_iff; reflexivity).
    reflexivity.
Qed.

Lemma linkClose_word : forall c s,
  in_class wordOrHyphen c = true -> matchHere linkClose false (c :: s) = None.
Proof.
  intros c s H; unfold linkClose; cbn [matchHere].
  rewrite (word_not_lparen _ H); reflexivity.
Qed.

Lemma greedy_refEnd : forall s,
  greedy wordOrHyphen (matchHere linkClose false) s = refEnd s.
Proof.
  induction s as [|c s IH]; cbn [greedy refEnd].
  - reflexivity.
  - rewrite IH. destruct (in_class wordOrHyphen c) eqn:E; [|reflexivity].
    destruct (refEnd s); [reflexivity | apply linkClose_word; exact E].
Qed.

Lemma refEnd_cons_word : forall c s,
  in_class wordOrHyphen c = true -> refEnd (c :: s) = option_map S (refEnd s).
Proof. intros c s H; cbn [refEnd]; rewrite H; reflexivity. Qed.

(** The match of the pattern at the head of a string, without the
    matcher. *)
Lemma refMatch_eq : forall s,
  refMatch s
  = match s with
    | c :: s1 =>
        if in_class lower c
        then match s1 with
             | d :: _ =>
                 if in_class wordOrHyphen d then option_map S (refEnd s1)
                 else None
             | [] => None
             end
        else None
    | [] => None
    end.
Proof.
  intros [|c [|d s]]; unfold refMatch, linkRegex; cbn [matchHere];
    try reflexivity.
  destruct (in_class lower c); [|reflexivity].
  destruct (in_class wordOrHyphen d) eqn:Ed; [|reflexivity].
  rewrite refEnd_cons_word by exact Ed. rewrite greedy_refEnd. reflexivity.
Qed.

Lemma matchHere_link : forall b s, matchHere linkRegex b s = refMatch s.
Proof. intros b [|c s]; reflexivity. Qed.

Lemma refMatch_refEnd : forall s len,
  refMatch s = Some len -> refEnd s = Some len.
Proof.
  intros s len; rewrite refMatch_eq.
  destruct s as [|c s1]; [discriminate|].
  destruct (in_class lower c) eqn:Ec; [|discriminate].
  rewrite refEnd_cons_word by (apply lower_word; exact Ec).
  destruct s1 as [|d s2]; [discriminate|].
  destruct (in_class wordOrHyphen d); [auto | discriminate].
Qed.

Lemma refMatch_lower : forall c s len,
  refMatch (c :: s) = Some len -> in_class lower c = true.
Proof.
  intros c s len; rewrite refMatch_eq.
  destruct (in_class lower c); [reflexivity | discriminate].
Qed.

(** Inside a reference, a further match can only end where the reference
    ends. *)
Lemma refEnd_inside : forall j s e len,
  refEnd s = Some e -> j < e -> refMatch (skipn j s) = Some len ->
  j + len = e.
Proof.
  induction j as [|j IH]; intros s e len He Hj Hm.
  - apply refMatch_refEnd in Hm; cbn [skipn] in Hm.
    rewrite He in Hm; injection Hm as <-; reflexivity.
  - destruct s as [|x s]; [discriminate He|].
    cbn [skipn] in Hm. cbn [refEnd] in He.
    destruct (in_class wordOrHyphen x) eqn:Ex.
    + destruct (refEnd s) as [e'|] eqn:E'; [|discriminate He].
      injection He as <-.
      assert (j + len = e') by (apply (IH s e' len E'); [lia | exact Hm]).
      lia.
    + apply linkClose_iff in He.
      destruct He as (-> & d & rest & E & Hd); injection E as -> ->.
      exfalso. destruct j as [|[|j]]; [| |lia]; cbn [skipn] in Hm;
        apply refMatch_lower, lower_iff in Hm;
        unfold isLower, isDigit, rparen in *; lia.
Qed.

Lemma refMatch_overlap : forall s len j len',
  refMatch s = Some len -> 0 < j < len ->
  refMatch (skipn j s) = Some len' -> j + len' = len.
Proof.
  intros s len j len' Hm [Hj0 Hj] Hm'.
  apply refMatch_refEnd in Hm.
  eapply refEnd_inside; eassumption.
Qed.

Lemma firstn_exact : forall A (a b : list A),
  firstn (length a) (a ++ b) = a.
Proof.
  induction a as [|x a IH]; intros b; simpl; [destruct b|rewrite IH];
    reflexivity.
Qed.

Lemma refEnd_iff : forall s e,
  refEnd s = Some e
  <-> exists run d rest,
        s = run ++ lparen :: d :: rparen :: rest
        /\ Forall isWordOrHyphen run /\ isDigit d /\ e = length run + 3.
Proof.
  intros s e; split.
  - revert e; induction s as [|x s IH]; intros e H; [discriminate H|].
    cbn [refEnd] in H. destruct (in_class wordOrHyphen x) eqn:Ex.
    + destruct (refEnd s) as [e'|]; [|discriminate H]. injection H as <-.
      destruct (IH e' eq_refl) as (run & d & rest & -> & Hr & Hd & ->).
      exists (x :: run), d, rest.
      split; [reflexivity|]. split; [|split; [exact Hd | reflexivity]].
      constructor; [apply wordOrHyphen_iff; exact Ex | exact Hr].
    + apply linkClose_iff in H. destruct H as (-> & d & rest & E & Hd).
      exists [], d, rest.
      split; [exact E|]. split; [constructor|]. split; [exact Hd | reflexivity].
  - intros (run & d & rest & -> & Hr & Hd & ->).
    induction Hr as [|x run Hx Hr IH].
    + cbn [app refEnd].
      replace (in_class wordOrHyphen lparen) with false by reflexivity.
      apply linkClose_iff; split; [reflexivity | exists d, rest; auto].
    + cbn [app]. rewrite refEnd_cons_word by (apply wordOrHyphen_iff; exact Hx).
      rewrite IH; reflexivity.
Qed.

(** The matcher finds a match of length [len] at the head of [s] exactly
    when the first [len] code units of [s] have the shape of a reference. *)
Lemma refMatch_iff : forall s len,
  refMatch s = Some len <-> len <= length s /\ refPattern (firstn len s).
Proof.
  intros s len; rewrite refMatch_eq; split.
  - destruct s as [|c s1]; [discriminate|].
    destruct (in_class lower c) eqn:Ec; [|discriminate].
    destruct s1 as [|x s2]; [discriminate|].
    destruct (in_class wordOrHyphen x) eqn:Ex; [|discriminate].
    destruct (refEnd (x :: s2)) as [e|] eqn:He; [|discriminate].
    intros H; injection H as <-.
    apply refEnd_iff in He.
    destruct He as (run & d & rest & E & Hr & Hd & ->).
    assert (run <> []) as Hne.
    { intros ->; injection E as -> _. discriminate Ex. }
    rewrite E.
    replace (c :: run ++ lparen :: d :: rparen :: rest)
      with ((c :: run ++ [lparen; d; rparen]) ++ rest)
      by (simpl; rewrite <- app_assoc; reflexivity).
    replace (S (length run + 3)) with (length (c :: run ++ [lparen; d; rparen]))
      by (simpl; rewrite length_app; reflexivity).
    split; [rewrite (length_app _ rest); lia|].
    rewrite firstn_exact. exists c, run, d.
    split; [reflexivity|]. split; [apply lower_iff; exact Ec|].
    split; [exact Hne|]. split; [exact Hr | exact Hd].
  - intros (Hlen & c & run & d & E & Hc & Hne & Hr & Hd).
    assert (len = length run + 4) as ->.
    { rewrite <- (Nat.min_l _ _ Hlen), <- length_firstn, E.
      simpl; rewrite length_app; simpl; lia. }
    rewrite <- (firstn_skipn (length run + 4) s), E.
    destruct run as [|x run]; [congruence|].
    inversion Hr as [|? ? Hx Hr']; subst. cbn [app].
    apply lower_iff in Hc; rewrite Hc.
    pose proof Hx as Hx'; apply wordOrHyphen_iff in Hx'; rewrite Hx'.
    replace (refEnd (x :: (run ++ [lparen; d; rparen]) ++ skipn _ s))
      with (Some (length (x :: run) + 3)); [simpl; f_equal; lia|].
    symmetry; apply refEnd_iff.
    exists (x :: run), d, (skipn (length (x :: run) + 4) s).
    split; [simpl; rewrite <- app_assoc; reflexivity|].
    split; [exact Hr|]. split; [exact Hd | reflexivity].
Qed.

Lemma refMatch_pos : forall s len, refMatch s = Some len -> 0 < len.
Proof.
  intros s len H; apply refMatch_iff in H.
  destruct H as (_ & c & run & d & E & _).
  assert (length (firstn len s) <> 0) as K by (rewrite E; discriminate).
  destruct len; [simpl in K; congruence | lia].
Qed.

Section Scan.

Variables (x : char) (s : jsstring).

Lemma leftmostFrom_skip : forall k j len,
  leftmostFrom (S k) (x :: s) j len
  <-> exists j0, j = S j0 /\ leftmostFrom k s j0 len.
Proof.
  intros k j len; unfold leftmostFrom; split.
  - intros (Hk & Hm & Hl). destruct j as [|j0]; [lia|].
    exists j0; split; [reflexivity|]. split; [lia|]. split; [exact Hm|].
    intros j' Hj' Hlt. apply (Hl (S j')); lia.
  - intros (j0 & -> & Hk & Hm & Hl). split; [lia|]. split; [exact Hm|].
    intros [|j'] Hj' Hlt; [lia|]. apply Hl; lia.
Qed.

Lemma leftmostFrom_miss : forall j len,
  refMatch (x :: s) = None ->
  (leftmostFrom 0 (x :: s) j len
   <-> exists j0, j = S j0 /\ leftmostFrom 0 s j0 len).
Proof.
  intros j len Hn; unfold leftmostFrom; split.
  - intros (_ & Hm & Hl). destruct j as [|j0].
    + cbn [skipn] in Hm; congruence.
    + exists j0; split; [reflexivity|]. split; [lia|]. split; [exact Hm|].
      intros j' _ Hlt. apply (Hl (S j')); lia.
  - intros (j0 & -> & _ & Hm & Hl). split; [lia|]. split; [exact Hm|].
    intros [|j'] _ Hlt; [cbn [skipn]; congruence | apply Hl; lia].
Qed.

Lemma leftmostFrom_hit : forall j len len0,
  refMatch (x :: s) = Some len0 ->
  (leftmostFrom 0 (x :: s) j len
   <-> (j = 0 /\ len = len0)
       \/ exists j0, j = S j0 /\ leftmostFrom (len0 - 1) s j0 len).
Proof.
  intros j len len0 H0; unfold leftmostFrom; split.
  - intros (_ & Hm & Hl). destruct j as [|j0].
    + left; cbn [skipn] in Hm; split; congruence.
    + right; exists j0; split; [reflexivity|].
      assert (len0 - 1 <= j0) as Hge.
      { destruct (Nat.le_gt_cases (len0 - 1) j0) as [|Hlt]; [assumption|].
        exfalso. apply (Hl 0); [lia | lia |]. cbn [skipn].
        rewrite H0; f_equal.
        symmetry. rewrite Nat.add_comm, Nat.sub_0_r.
        apply (@refMatch_overlap (x :: s) len0 (S j0) len H0); [lia|exact Hm]. }
      split; [exact Hge|]. split; [exact Hm|].
      intros j' Hj' Hlt. apply (Hl (S j')); lia.
  - intros [[-> ->] | (j0 & -> & Hge & Hm & Hl)].
    + split; [lia|]. split; [exact H0|]. intros j' _ Hlt; lia.
    + pose proof (refMatch_pos _ Hm) as Hpos.
      split; [lia|]. split; [exact Hm|].
      intros j' _ Hlt K.
      destruct j' as [|j'].
      * cbn [skipn] in K. rewrite H0 in K; injection K as K. lia.
      * destruct (Nat.le_gt_cases (len0 - 1) j') as [Hle|Hgt].
        -- apply (Hl j'); [exact Hle | lia | exact K].
        -- pose proof (@refMatch_overlap (x :: s) len0 (S j') _ H0
                        ltac:(lia) K) as Ho.
           lia.
Qed.

End Scan.

(** The matches [matchAll] reports, from offset [k] of a string that
    starts at index [idx] of the line. *)
Lemma matchAllFrom_link : forall s idx k col w,
  In (col, w) (matchAllFrom linkRegex idx k s)
  <-> exists j len,
        col = idx + j /\ w = firstn len (skipn j s)
        /\ leftmostFrom k s j len.
Proof.
  induction s as [|x s IH]; intros idx k col w.
  - cbn [matchAllFrom]. rewrite matchHere_link.
    replace (refMatch []) with (@None nat) by reflexivity.
    split; [destruct k; intros [] |].
    intros (j & len & _ & _ & _ & Hm & _).
    rewrite skipn_nil in Hm; discriminate Hm.
  - cbn [matchAllFrom]. destruct k as [|k].
    + rewrite matchHere_link.
      destruct (refMatch (x :: s)) as [len0|] eqn:E0.
      * cbn [In]. rewrite IH. split.
        -- intros [K | (j0 & len & -> & -> & Hl)].
           ++ injection K as <- <-. exists 0, len0.
              split; [lia|]. split; [reflexivity|].
              apply (leftmostFrom_hit _ _ _ _ E0); left; auto.
           ++ exists (S j0), len. split; [lia|]. split; [reflexivity|].
              apply (leftmostFrom_hit _ _ _ _ E0); right; exists j0; auto.
        -- intros (j & len & -> & -> & Hl).
           apply (leftmostFrom_hit _ _ _ _ E0) in Hl.
           destruct Hl as [[-> ->] | (j0 & -> & Hl)].
           ++ left; rewrite Nat.add_0_r; reflexivity.
           ++ right; exists j0, len. split; [lia|]. split; [reflexivity|exact Hl].
      * rewrite IH. split.
        -- intros (j0 & len & -> & -> & Hl). exists (S j0), len.
           split; [lia|]. split; [reflexivity|].
           apply (leftmostFrom_miss _ _ _ _ E0); exists j0; auto.
        -- intros (j & len & -> & -> & Hl).
           apply (leftmostFrom_miss _ _ _ _ E0) in Hl.
           destruct Hl as (j0 & -> & Hl). exists j0, len.
           split; [lia|]. split; [reflexivity|exact Hl].
    + rewrite IH. split.
      * intros (j0 & len & -> & -> & Hl). exists (S j0), len.
        split; [lia|]. split; [reflexivity|].
        apply leftmostFrom_skip; exists j0; auto.
      * intros (j & len & -> & -> & Hl).
        apply leftmostFrom_skip in Hl.
        destruct Hl as (j0 & -> & Hl). exists j0, len.
        split; [lia|]. split; [reflexivity|exact Hl].
Qed.

Lemma FOP_app : forall A (R : A -> A -> Prop) a b,
  ForallOrdPairs R a -> ForallOrdPairs R b ->
  (forall x y, In x a -> In y b -> R x y) ->
  ForallOrdPairs R (a ++ b).
Proof.
  induction a as [|x a IH]; intros b Ha Hb Hab; simpl; [exact Hb|].
  inversion Ha as [|? ? Hx Ha']; subst. constructor.
  - apply Forall_app; split; [exact Hx|].
    apply Forall_forall; intros y Hy; apply Hab; [left; reflexivity | exact Hy].
  - apply IH; auto. intros u v Hu Hv; apply Hab; [right; exact Hu | exact Hv].
Qed.

Lemma FOP_map : forall A B (f : A -> B) (R : A -> A -> Prop)
                       (R' : B -> B -> Prop) l,
  (forall a b, R a b -> R' (f a) (f b)) ->
  ForallOrdPairs R l -> ForallOrdPairs R' (map f l).
Proof.
  intros A B f R R' l HR; induction 1 as [|a l Ha Hl IH]; simpl;
    constructor; [|exact IH].
  apply Forall_map. revert Ha; apply Forall_impl; intros b; apply HR.
Qed.

Lemma FOP_weaken : forall A (R R' : A -> A -> Prop) l,
  (forall a b, R a b -> R' a b) ->
  ForallOrdPairs R l -> ForallOrdPairs R' l.
Proof.
  intros A R R' l HR; induction 1 as [|a l Ha Hl IH]; constructor;
    [|exact IH].
  revert Ha; apply Forall_impl; intros b; apply HR.
Qed.

(** The matches of a line come from left to right and do not overlap;
    this holds for any regular expression. *)
Lemma matchAllFrom_ordered : forall r s idx k,
  Forall (fun m => idx + k <= fst m) (matchAllFrom r idx k s)
  /\ ForallOrdPairs matchBefore (matchAllFrom r idx k s).
Proof.
  induction s as [|x s IH]; intros idx k; cbn [matchAllFrom].
  - destruct k; [destruct (matchHere r (idx =? 0) [])|]; split;
      repeat constructor. simpl; lia.
  - destruct k as [|k].
    + destruct (matchHere r (idx =? 0) (x :: s)) as [len|].
      * destruct (IH (S idx) (len - 1)) as [Hge Hord]. split.
        -- constructor; [simpl; lia|].
           revert Hge; apply Forall_impl; intros m; lia.
        -- constructor; [|exact Hord].
           revert Hge; apply Forall_impl; intros m Hm.
           pose proof (firstn_le_length len (x :: s)).
           unfold matchBefore; cbn [fst snd]; lia.
      * destruct (IH (S idx) 0) as [Hge Hord]. split; [|exact Hord].
        revert Hge; apply Forall_impl; intros m; lia.
    + destruct (IH (S idx) k) as [Hge Hord]. split; [|exact Hord].
      revert Hge; apply Forall_impl; intros m; lia.
Qed.

Lemma split_parts : forall sep s p, In p (split sep s) -> ~ In sep p.
Proof.
  induction s as [|c s IH]; intros p Hp; simpl in Hp.
  - destruct Hp as [<-|[]]; intros [].
  - destruct (N.eqb_spec c sep) as [->|Hc].
    + destruct Hp as [<-|Hp]; [intros [] | exact (IH p Hp)].
    + destruct (split sep s) as [|q qs] eqn:E.
      * destruct Hp as [<-|[]]. intros [K|[]]; congruence.
      * destruct Hp as [<-|Hp].
        -- intros [K|K]; [congruence|]. exact (IH q (or_introl eq_refl) K).
        -- exact (IH p (or_intror Hp)).
Qed.

Lemma fold_left_push : forall A B (f : A -> list B) l init,
  fold_left (fun acc i => acc ++ f i) l init = init ++ flat_map f l.
Proof.
  induction l as [|i l IH]; intros init; simpl.
  - rewrite app_nil_r; reflexivity.
  - rewrite IH, app_assoc; reflexivity.
Qed.

Lemma map_flat_map : forall A B C (g : B -> C) (f : A -> list B) l,
  map g (flat_map f l) = flat_map (fun x => map g (f x)) l.
Proof.
  induction l as [|x l IH]; simpl; [reflexivity|].
  rewrite map_app, IH; reflexivity.
Qed.

Lemma provideDocumentLinks_eq : forall document,
  provideDocumentLinks document
  = flat_map (fun i => lineLinks i (nth i (split newline document) []))
             (seq 0 (length (split newline document))).
Proof.
  intros document; unfold provideDocumentLinks. apply fold_left_push.
Qed.

Lemma spanOf_lineLinks : forall i l,
  map spanOf (lineLinks i l) = map (matchSpan i) (matchAll linkRegex l).
Proof.
  intros i l; unfold lineLinks. rewrite map_map. apply map_ext.
  intros [col w]; unfold spanOf, matchSpan; cbn.
  f_equal. lia.
Qed.

Lemma scanSpans_eq : forall document,
  scanSpans document
  = flat_map (fun i => map (matchSpan i)
                           (matchAll linkRegex
                                     (nth i (split newline document) [])))
             (seq 0 (length (split newline document))).
Proof.
  intros document; unfold scanSpans.
  rewrite provideDocumentLinks_eq, map_flat_map.
  apply flat_map_ext; intros i; apply spanOf_lineLinks.
Qed.

Lemma substring_length : forall l col len,
  col + len <= length l -> length (substring l col len) = len.
Proof.
  intros l col len H; unfold substring.
  rewrite length_firstn, length_skipn; lia.
Qed.

(** The matches of a line: the substrings with the shape of a reference
    that are not the end of a longer such substring. *)
Lemma matchAll_link_iff : forall l col w,
  In (col, w) (matchAll linkRegex l)
  <-> occursAt l col w
      /\ refPattern w
      /\ forall col', col' < col ->
           ~ refPattern (substring l col' (length w + (col - col'))).
Proof.
  intros l col w; unfold matchAll; rewrite matchAllFrom_link; split.
  - intros (j & len & -> & -> & _ & Hm & Hl); cbn [Nat.add].
    pose proof (refMatch_pos _ Hm) as Hpos.
    apply refMatch_iff in Hm; destruct Hm as [Hlen Hp].
    rewrite length_skipn in Hlen.
    assert (length (firstn len (skipn j l)) = len) as Hw
      by (apply (substring_length l j len); lia).
    unfold occursAt, substring; rewrite Hw.
    split; [split; [lia | reflexivity]|]. split; [exact Hp|].
    intros col' Hlt K. apply (Hl col'); [lia | exact Hlt |].
    apply refMatch_iff; split; [rewrite length_skipn; lia | exact K].
  - intros ([Hlen Hsub] & Hp & Hl). exists col, (length w).
    split; [reflexivity|]. split; [symmetry; exact Hsub|].
    split; [lia|]. split.
    + apply refMatch_iff; split; [rewrite length_skipn; lia|].
      unfold substring in Hsub; rewrite Hsub; exact Hp.
    + intros j' _ Hlt K. apply refMatch_iff in K. destruct K as [_ K].
      exact (Hl j' Hlt K).
Qed.

Lemma scanSpans_In : forall document i col len,
  In (mkSpan i col len) (scanSpans document)
  <-> exists l,
        nth_error (split newline document) i = Some l
        /\ col + len <= length l
        /\ refPattern (substring l col len)
        /\ forall col', col' < col ->
             ~ refPattern (substring l col' (len + (col - col'))).
Proof.
  intros document i col len; rewrite scanSpans_eq, in_flat_map.
  set (lines := split newline document). split.
  - intros (i' & Hi' & Hin). apply in_map_iff in Hin.
    destruct Hin as ([c w] & E & Hin).
    unfold matchSpan in E; cbn [fst snd] in E. injection E as -> -> <-.
    apply in_seq in Hi'. exists (nth i lines []).
    split; [apply nth_error_nth'; lia|].
    apply matchAll_link_iff in Hin.
    destruct Hin as ([Hlen Hsub] & Hp & Hl).
    split; [exact Hlen|]. split; [rewrite Hsub; exact Hp | exact Hl].
  - intros (l & Hnth & Hlen & Hp & Hl).
    assert (i < length lines) as Hi by (apply nth_error_Some; congruence).
    exists i; split; [apply in_seq; lia|].
    rewrite (nth_error_nth _ _ _ Hnth). apply in_map_iff.
    exists (col, substring l col len). unfold matchSpan; cbn [fst snd].
    rewrite (substring_length l col len Hlen). split; [reflexivity|].
    apply matchAll_link_iff. unfold occursAt.
    rewrite !(substring_length l col len Hlen).
    split; [split; [exact Hlen | reflexivity]|]. split; [exact Hp | exact Hl].
Qed.

Lemma lineSpans_ordered : forall (f : nat -> jsstring) n start,
  let L := flat_map (fun i => map (matchSpan i) (matchAll linkRegex (f i)))
                    (seq start n) in
  Forall (fun sp => start <= spanLine sp) L /\ ForallOrdPairs spanBefore L.
Proof.
  intros f; induction n as [|n IH]; intros start; cbv zeta;
    cbn [seq flat_map]; [split; constructor|].
  destruct (IH (S start)) as [Hge Hord].
  assert (Forall (fun sp => spanLine sp = start)
                 (map (matchSpan start) (matchAll linkRegex (f start)))) as Hl
    by (apply Forall_map, Forall_forall; intros m _; reflexivity).
  split.
  - apply Forall_app; split.
    + revert Hl; apply Forall_impl; intros sp; lia.
    + revert Hge; apply Forall_impl; intros sp; lia.
  - apply FOP_app; [|exact Hord|].
    + apply FOP_map with (R := matchBefore);
        [|apply (matchAllFrom_ordered linkRegex (f start) 0 0)].
      intros a b [H1 H2]; right; cbn [matchSpan spanLine startColumn spanLength].
      auto.
    + intros a b Ha Hb. rewrite Forall_forall in Hl, Hge.
      left. rewrite (Hl a Ha). apply (Hge b Hb).
Qed.

Lemma spanBefore_neq : forall a b, spanBefore a b -> a <> b.
Proof. intros a b [H | (_ & H & _)] ->; lia. Qed.

Lemma scanSpans_ordered : forall document,
  ForallOrdPairs spanBefore (scanSpans document)
  /\ NoDup (scanSpans document).
Proof.
  intros document.
  assert (ForallOrdPairs spanBefore (scanSpans document)) as H
    by (rewrite scanSpans_eq; apply (lineSpans_ordered _ _ 0)).
  split; [exact H|].
  apply NoDup_iff_ForallOrdPairs. revert H; apply FOP_weaken.
  exact spanBefore_neq.
Qed.

(** C7.  The scanner emits one span per match of the pattern (a lowercase
    letter, one or more word characters or hyphens, [(], one digit, [)]),
    a match being, as for the global regular expression, a substring of a
    line of that shape that is not the end of a longer such substring; the
    spans come in line order and from left to right on a line, without
    repetition.  The examples of the specification are instances. *)
Theorem scanner_spans :
  (forall document i col len,
      In (mkSpan i col len) (scanSpans document)
      <-> exists l,
            nth_error (split newline document) i = Some l
            /\ col + len <= length l
            /\ refPattern (substring l col len)
            /\ forall col', col' < col ->
                 ~ refPattern (substring l col' (len + (col - col'))))
  /\ (forall document,
         ForallOrdPairs spanBefore (scanSpans document)
         /\ NoDup (scanSpans document))
  /\ scanSpans (js "See git-annotate(1) and ls(1) for details")
     = [mkSpan 0 4 15; mkSpan 0 24 5]
  /\ scanSpans (js "foo(12)") = []
  /\ scanSpans (js "(1)") = []
  /\ scanSpans (js "see (1) and a(1) and A_b(1)") = [].
Proof.
  split; [exact scanSpans_In|]. split; [exact scanSpans_ordered|].
  repeat split.
Qed.

Lemma scanner_spans_witness :
  In (mkSpan 0 24 5)
     (scanSpans (js "See git-annotate(1) and ls(1) for details"))
  <-> exists l,
        nth_error
          (split newline (js "See git-annotate(1) and ls(1) for details")) 0
        = Some l
        /\ 24 + 5 <= length l
        /\ refPattern (substring l 24 5)
        /\ forall col', col' < 24 ->
             ~ refPattern (substring l col' (5 + (24 - col'))).
Proof.
  exact (proj1 scanner_spans
               (js "See git-annotate(1) and ls(1) for details") 0 24 5).
Defined.

(** What a link of the provider is made of. *)
Lemma provideDocumentLinks_In : forall document link,
  In link (provideDocumentLinks document) ->
  exists i l col w,
    nth_error (split newline document) i = Some l
    /\ In (col, w) (matchAll linkRegex l)
    /\ link = mkLink (mkRange (mkPosition i col)
                              (mkPosition (i + 0) (col + length w)))
                     (js "man:" ++ w).
Proof.
  intros document link H. rewrite provideDocumentLinks_eq in H.
  apply in_flat_map in H. destruct H as (i & Hi & H).
  apply in_seq in Hi. unfold lineLinks in H. apply in_map_iff in H.
  destruct H as ([col w] & <- & H).
  exists i, (nth i (split newline document) []), col, w.
  split; [apply nth_error_nth'; lia|]. split; [exact H | reflexivity].
Qed.

(** C9.  Every link of the scanner starts and ends on the same line, a
    line of the document; its columns lie within that line, which holds no
    line break, and its target is the text between them.  A reference cut
    by a line break is only seen as far as it stands on one line. *)
Theorem spans_within_line :
  (forall document link,
      In link (provideDocumentLinks document) ->
      let sp := spanOf link in
      line (range_start (range link)) = spanLine sp
      /\ line (range_end (range link)) = spanLine sp
      /\ character (range_end (range link)) = startColumn sp + spanLength sp
      /\ exists l,
           nth_error (split newline document) (spanLine sp) = Some l
           /\ startColumn sp + spanLength sp <= length l
           /\ ~ In newline l
           /\ target link
              = js "man:" ++ substring l (startColumn sp) (spanLength sp))
  /\ scanSpans (page ["it is done by git-"; "annotate(1) as well"]%string)
     = [mkSpan 1 0 11]
  /\ scanSpans (page ["it is done by git-annotate"; "(1) as well"]%string)
     = [].
Proof.
  split; [|split; reflexivity].
  intros document link H.
  destruct (provideDocumentLinks_In _ _ H) as (i & l & col & w & Hl & Hm & ->).
  apply matchAll_link_iff in Hm. destruct Hm as ([Hlen Hsub] & _).
  unfold spanOf;
    cbn [range range_start range_end line character target
         spanLine startColumn spanLength].
  replace (col + length w - col) with (length w) by lia.
  split; [reflexivity|]. split; [lia|]. split; [reflexivity|].
  exists l. split; [exact Hl|]. split; [exact Hlen|]. split.
  - apply split_parts with (s := document).
    apply nth_error_In with (n := i); exact Hl.
  - rewrite Hsub; reflexivity.
Qed.

Lemma spans_within_line_witness :
  exists l,
    nth_error (split newline (page ["see"; "also ls(1)"]%string)) 1 = Some l
    /\ 5 + 5 <= length l.
Proof.
  assert (In (mkLink (mkRange (mkPosition 1 5) (mkPosition 1 10))
                     (js "man:ls(1)"))
             (provideDocumentLinks (page ["see"; "also ls(1)"]%string))) as H
    by (vm_compute; left; reflexivity).
  destruct (proj1 spans_within_line _ _ H) as (_ & _ & _ & l & Hl & Hlen & _).
  exists l; split; [exact Hl | exact Hlen].
Defined.

Lemma isHeading_characterisation_witness :
  exists c rest,
    js "SEE ALSO" = c :: rest /\ headingFirst c
    /\ Forall headingNext rest /\ 2 <= length (js "SEE ALSO").
Proof.
  apply (proj1 (isHeading_characterisation (js "SEE ALSO"))). reflexivity.
Defined.

(** ** The examples of the source's comments *)

Example parse_git_annotate :
  parseManEntry (js "git-annotate (1) description")
  = Return {| name := js "git-annotate"; section := js "1" |}.
Proof. reflexivity. Qed.

(** The section name of IO::Socket::IP (3perl) quoted in the source, with
    its double quotes (code unit 34). *)
Example heading_with_quotes :
  isHeading (34%N :: js "IO::Socket::INET" ++ 34%N :: js " INCOMPATIBILITES")
  = true.
Proof. reflexivity. Qed.

(** * Further properties of the source *)

(** ** Lines *)

Lemma joinLines_cons : forall l ls,
  ls <> [] -> joinLines (l :: ls) = l ++ newline :: joinLines ls.
Proof. intros l [|l' ls] H; [congruence | reflexivity]. Qed.


Lemma split_joinLines : forall ls,
  ls <> [] -> Forall (fun l => ~ In newline l) ls ->
  split newline (joinLines ls) = ls.
Proof.
  induction ls as [|l ls IH]; intros Hne Hall; [congruence|].
  inversion Hall as [|? ? Hl Hls]; subst.
  destruct ls as [|l' ls].
  - simpl; apply split_no_sep; exact Hl.
  - rewrite joinLines_cons by discriminate.
    rewrite split_app_sep by exact Hl.
    rewrite IH by (auto; discriminate). reflexivity.
Qed.


Lemma split_snoc_sep : forall sep s,
  split sep (s ++ [sep]) = split sep s ++ [[]].
Proof.
  induction s as [|c s IH]; simpl.
  - rewrite N.eqb_refl; reflexivity.
  - destruct (N.eqb_spec c sep) as [->|Hc]; rewrite IH; [reflexivity|].
    destruct (split sep s) as [|q qs] eqn:E;
      [exfalso; exact (split_nonempty _ _ E) | reflexivity].
Qed.

Lemma split_app : forall sep a b,
  split sep (a ++ sep :: b)
  = split sep a ++ split sep b.
Proof.
  induction a as [|c a IH]; intros b; simpl.
  - rewrite N.eqb_refl; reflexivity.
  - destruct (N.eqb_spec c sep) as [->|Hc]; rewrite IH; [reflexivity|].
    destruct (split sep a) as [|q qs] eqn:E;
      [exfalso; exact (split_nonempty _ _ E) | reflexivity].
Qed.

(** ** systemManuals *)



(** X2.  The output of [man -k] ends with a line break, and then the last
    item [systemManuals] offers is the empty string, after the lines of the
    output before that line break; for that item, as for a dismissed pick,
    the command opens nothing. *)
Theorem systemManuals_last_item : forall spawnSync out,
  let proc := spawnSync (js "man") [js "-k"; js ""] in
  error proc = None ->
  stdout proc = out ++ [newline] ->
  exists items,
    systemManuals spawnSync = Return (items ++ [[]])
    /\ items = split newline out
    /\ manualsMan (Some (last (items ++ [[]]) (js "x"))) = None
    /\ manualsMan None = None.
Proof.
  intros spawnSync out proc He Ho. exists (split newline out).
  unfold systemManuals; fold proc. rewrite He, Ho, split_snoc_sep.
  rewrite last_last. repeat split.
Qed.

Lemma systemManuals_last_item_witness :
  systemManuals
    (fun _ _ => mkProc None (page ["ls (1) - list"; "cp (1) - copy"; ""]%string))
  = Return ([js "ls (1) - list"; js "cp (1) - copy"] ++ [[]]).
Proof.
  destruct (@systemManuals_last_item
              (fun _ _ => mkProc None
                 (page ["ls (1) - list"; "cp (1) - copy"; ""]%string))
              (page ["ls (1) - list"; "cp (1) - copy"]%string)
              eq_refl eq_refl) as (items & -> & -> & _).
  reflexivity.
Defined.

(** ** indexOf and slice *)

Lemma startsWith_iff : forall needle s,
  startsWith needle s = true <-> exists rest, s = needle ++ rest.
Proof.
  induction needle as [|a needle IH]; intros s; simpl.
  - split; [intros _; exists s; reflexivity | reflexivity].
  - destruct s as [|b s].
    + split; [discriminate | intros (rest & H); discriminate H].
    + rewrite andb_true_iff, N.eqb_eq, IH. split.
      * intros (-> & rest & ->); exists rest; reflexivity.
      * intros (rest & H); injection H as -> ->. split; [reflexivity|].
        exists rest; reflexivity.
Qed.

(** [indexOf] finds the first occurrence, and answers -1 exactly when
    there is none. *)
Lemma indexOfFrom_spec : forall needle s idx,
  (indexOfFrom needle s idx = (-1)%Z
   /\ forall a b, s <> a ++ needle ++ b)
  \/ (exists a b,
        s = a ++ needle ++ b
        /\ indexOfFrom needle s idx = Z.of_nat (idx + length a)
        /\ forall a' b', s = a' ++ needle ++ b' -> length a <= length a').
Proof.
  induction s as [|x s IH]; intros idx; cbn [indexOfFrom];
    destruct (startsWith needle _) eqn:E.
  - right. apply startsWith_iff in E; destruct E as (rest & E).
    exists [], rest. split; [exact E|]. split; [f_equal; simpl; lia|].
    intros; simpl; lia.
  - left; split; [reflexivity|]. intros a b H.
    destruct a; [|discriminate H]. simpl in H.
    assert (startsWith needle [] = true) as K
      by (apply startsWith_iff; exists b; exact H).
    congruence.
  - right. apply startsWith_iff in E; destruct E as (rest & E).
    exists [], rest. split; [exact E|]. split; [f_equal; simpl; lia|].
    intros; simpl; lia.
  - destruct (IH (S idx)) as [[Hm Hno] | (a & b & Hs & Hi & Hmin)].
    + left; split; [exact Hm|]. intros [|y a] b H.
      * assert (startsWith needle (x :: s) = true) as K
          by (apply startsWith_iff; exists b; exact H).
        congruence.
      * injection H as _ H. exact (Hno a b H).
    + right. exists (x :: a), b.
      split; [rewrite Hs; reflexivity|].
      split; [rewrite Hi; f_equal; simpl; lia|].
      intros [|y a'] b' H.
      * assert (startsWith needle (x :: s) = true) as K
          by (apply startsWith_iff; exists b'; exact H).
        congruence.
      * injection H as _ H. pose proof (Hmin a' b' H). simpl; lia.
Qed.

Lemma slice_prefix : forall s k,
  k <= length s -> slice s 0 (Z.of_nat k) = firstn k s.
Proof.
  intros s k H; unfold slice.
  destruct (Z.ltb_spec 0 0) as [K|_]; [lia|].
  destruct (Z.ltb_spec (Z.of_nat k) 0) as [K|_]; [lia|].
  rewrite Z.min_l by lia. rewrite Z.min_l by lia.
  rewrite Z.sub_0_r, Nat2Z.id. reflexivity.
Qed.

Lemma before_first : forall (c : char) a a' x y,
  ~ In c a -> a ++ c :: x = a' ++ c :: y -> length a <= length a'.
Proof.
  induction a as [|d a IH]; intros a' x y Hn H; simpl; [lia|].
  destruct a' as [|d' a']; simpl in H.
  - injection H as <- _. exfalso; apply Hn; left; reflexivity.
  - injection H as _ H. simpl.
    apply le_n_S, (IH a' x y); [|exact H].
    intros K; apply Hn; right; exact K.
Qed.

(** ** The command *)

Lemma indexOf_first : forall needle s a b,
  s = a ++ needle ++ b ->
  (forall a' b', s = a' ++ needle ++ b' -> length a <= length a') ->
  indexOf needle s = Z.of_nat (length a).
Proof.
  intros needle s a b Hs Hmin; unfold indexOf.
  destruct (indexOfFrom_spec needle s 0)
    as [[_ Hno] | (a0 & b0 & Hs0 & Hi & Hmin0)].
  - exfalso; exact (Hno a b Hs).
  - rewrite Hi. f_equal. simpl.
    apply Nat.le_antisymm; [apply (Hmin0 a b Hs) | apply (Hmin a0 b0 Hs0)].
Qed.

Lemma indexOf_none : forall needle s,
  indexOf needle s = (-1)%Z <-> forall a b, s <> a ++ needle ++ b.
Proof.
  intros needle s; unfold indexOf.
  destruct (indexOfFrom_spec needle s 0)
    as [[Hm Hno] | (a0 & b0 & Hs0 & Hi & _)].
  - split; [intros _; exact Hno | intros _; exact Hm].
  - split; [rewrite Hi; lia | intros H; exfalso; exact (H a0 b0 Hs0)].
Qed.

Lemma manualsMan_nonempty : forall pick,
  pick <> [] ->
  manualsMan (Some pick)
  = Some (js "man:" ++ slice pick 0 (indexOf (js ") ") pick + 1)).
Proof. intros [|c pick] H; [congruence | reflexivity]. Qed.

Lemma manualsMan_first : forall pick a b,
  pick = a ++ rparen :: space :: b ->
  (forall a' b', pick = a' ++ rparen :: space :: b' ->
                 length a <= length a') ->
  manualsMan (Some pick) = Some (js "man:" ++ a ++ [rparen]).
Proof.
  intros pick a b Hp Hmin.
  rewrite manualsMan_nonempty by (rewrite Hp; destruct a; discriminate).
  rewrite (@indexOf_first (js ") ") pick a b Hp Hmin).
  replace (Z.of_nat (length a) + 1)%Z with (Z.of_nat (length a + 1)) by lia.
  rewrite slice_prefix by (rewrite Hp, length_app; simpl; lia).
  do 2 f_equal. rewrite Hp.
  replace (a ++ rparen :: space :: b) with ((a ++ [rparen]) ++ space :: b)
    by (rewrite <- app_assoc; reflexivity).
  replace (length a + 1) with (length (a ++ [rparen]))
    by (rewrite length_app; reflexivity).
  apply firstn_exact.
Qed.

(** The parser on the path [name (section)]. *)
Lemma address_path_parse : forall nm sec,
  noParen nm -> endsWithWhiteSpace nm = false -> noParen sec ->
  parseManEntry (addressPath {| name := nm; section := sec |})
  = Return {| name := nm; section := sec |}.
Proof.
  intros nm sec [Hn _] Hw Hs. unfold addressPath; cbn [name section].
  change (js " (") with [space; lparen]; change (js ")") with [rparen].
  replace (nm ++ [space; lparen] ++ sec ++ [rparen])
    with ((nm ++ [space]) ++ lparen :: sec ++ rparen :: [])
    by (rewrite <- app_assoc; reflexivity).
  rewrite parseManEntry_head_section.
  - rewrite trimEnd_snoc_white by reflexivity.
    rewrite trimEnd_fixed by exact Hw; reflexivity.
  - intros H; apply in_app_or in H; destruct H as [H|[H|[]]];
      [exact (Hn H) | discriminate H].
  - exact Hs.
Qed.

(** X3.  For a pick in which [) ] occurs, the command opens [man:]
    followed by the pick up to and including the [)] of the first [) ]. *)
Theorem manualsMan_address : forall pick a b,
  pick = a ++ rparen :: space :: b ->
  (forall a' b', pick = a' ++ rparen :: space :: b' ->
                 length a <= length a') ->
  manualsMan (Some pick) = Some (js "man:" ++ a ++ [rparen]).
Proof.
  intros pick a b Hp Hmin.
  assert (indexOf (js ") ") pick = Z.of_nat (length a)) as Hi
    by (apply indexOf_first with (b := b); assumption).
  rewrite manualsMan_nonempty by (rewrite Hp; destruct a; discriminate).
  rewrite Hi.
  replace (Z.of_nat (length a) + 1)%Z with (Z.of_nat (length a + 1)) by lia.
  rewrite slice_prefix by (rewrite Hp, length_app; simpl; lia).
  do 2 f_equal. rewrite Hp.
  replace (a ++ rparen :: space :: b) with ((a ++ [rparen]) ++ space :: b)
    by (rewrite <- app_assoc; reflexivity).
  replace (length a + 1) with (length (a ++ [rparen]))
    by (rewrite length_app; reflexivity).
  apply firstn_exact.
Qed.

Lemma manualsMan_address_witness :
  manualsMan (Some (js "a(b)c (1) - d"))
  = Some (js "man:" ++ js "a(b)c (1" ++ [rparen]).
Proof.
  apply (@manualsMan_address _ (js "a(b)c (1") (js "- d")).
  - reflexivity.
  - intros a' b' H.
    let v := eval vm_compute in (js "a(b)c (1) - d") in
    change (js "a(b)c (1) - d") with v in H.
    unfold rparen, space in H.
    do 8 (destruct a' as [|? a']; simpl in H;
          [discriminate H | injection H as _ H]).
    simpl; lia.
Defined.

(** X4.  A pick that is not empty makes the command open the bare address
    [man:] exactly when [) ] does not occur in it (a line that stops right
    after its section, for one); on the empty path of that address the
    content provider fails with a [TypeError], whatever the process would
    answer. *)
Theorem manualsMan_bare_address : forall pick,
  pick <> [] ->
  (manualsMan (Some pick) = Some (js "man:")
   <-> forall a b, pick <> a ++ rparen :: space :: b)
  /\ forall spawnSync uri,
       path uri = [] ->
       provideTextDocumentContent spawnSync uri = Throw TypeError.
Proof.
  intros pick Hne. split.
  - rewrite manualsMan_nonempty by exact Hne.
    rewrite <- (indexOf_none (js ") ") pick). split.
    + intros H. injection H as H.
      destruct (indexOfFrom_spec (js ") ") pick 0)
        as [[Hm _] | (a & b & Hs & Hi & _)]; [exact Hm|].
      exfalso. unfold indexOf in H. rewrite Hi in H.
      replace (Z.of_nat (0 + length a) + 1)%Z
        with (Z.of_nat (length a + 1)) in H by lia.
      rewrite slice_prefix in H
        by (rewrite Hs, length_app; simpl; lia).
      apply (f_equal (@length char)) in H.
      rewrite length_firstn, Hs, length_app in H. simpl in H. lia.
    + intros ->. change (-1 + 1)%Z with (Z.of_nat 0).
      rewrite slice_prefix by lia. reflexivity.
  - intros spawnSync uri Hp. unfold provideTextDocumentContent.
    rewrite Hp. reflexivity.
Qed.

Lemma manualsMan_bare_address_witness :
  manualsMan (Some (js "ls (1)")) = Some (js "man:").
Proof.
  apply (proj1 (@manualsMan_bare_address (js "ls (1)") ltac:(discriminate))).
  intros a b H.
  let v := eval vm_compute in (js "ls (1)") in
  change (js "ls (1)") with v in H.
  unfold rparen, space in H.
  do 7 (destruct a as [|? a]; simpl in H;
        [discriminate H | first [discriminate H | injection H as _ H]]).
Defined.

(** ** provideTextDocumentContent *)

Lemma provideTextDocumentContent_paren : forall spawnSync uri head tail,
  path uri = head ++ lparen :: tail -> ~ In lparen head ->
  provideTextDocumentContent spawnSync uri
  = match error (spawnSync (js "man")
                           [takeWhile (fun c => negb (isParen c)) tail;
                            trimEnd head]) with
    | Some _ => Throw (Thrown manNotInstalled)
    | None =>
        Return (stdout (spawnSync (js "man")
                          [takeWhile (fun c => negb (isParen c)) tail;
                           trimEnd head]))
    end.
Proof.
  intros spawnSync uri head tail Hp Hh. unfold provideTextDocumentContent.
  rewrite Hp, parseManEntry_paren by exact Hh. reflexivity.
Qed.

(** X5.  The content provider fails with a [TypeError] exactly on a path
    without [(], and the process plays no part in that.  On any other path
    it runs [man] with two arguments, first the text after the first [(] up
    to the next parenthesis and then the text before that [(] without its
    trailing white space; it returns the output as it is, or throws
    [is man installed?] when the process could not be run. *)
Theorem provideTextDocumentContent_outcome : forall spawnSync uri,
  (provideTextDocumentContent spawnSync uri = Throw TypeError
   <-> ~ In lparen (path uri))
  /\ forall head tail,
       path uri = head ++ lparen :: tail -> ~ In lparen head ->
       let proc := spawnSync (js "man")
                     [takeWhile (fun c => negb (isParen c)) tail;
                      trimEnd head] in
       (error proc = None ->
        provideTextDocumentContent spawnSync uri = Return (stdout proc))
       /\ (error proc <> None ->
           provideTextDocumentContent spawnSync uri
           = Throw (Thrown manNotInstalled)).
Proof.
  intros spawnSync uri. split.
  - split.
    + intros H Hin.
      destruct (first_lparen (path uri)) as [Hn | (head & tail & Hp & Hh)];
        [exact (Hn Hin)|].
      rewrite (@provideTextDocumentContent_paren spawnSync uri head tail Hp Hh) in H.
      destruct (error _); discriminate H.
    + intros Hn. unfold provideTextDocumentContent.
      rewrite parseManEntry_no_paren by exact Hn. reflexivity.
  - intros head tail Hp Hh proc.
    rewrite (@provideTextDocumentContent_paren spawnSync uri head tail Hp Hh).
    fold proc.
    split; [intros ->; reflexivity|].
    destruct (error proc); [reflexivity | congruence].
Qed.

Lemma provideTextDocumentContent_outcome_witness :
  provideTextDocumentContent
    (fun _ args => mkProc None (concat args))
    (mkUri (js "man") [] (js "git-annotate (1)") [] [])
  = Return (js "1git-annotate").
Proof.
  apply (proj2 (provideTextDocumentContent_outcome
                  (fun _ args => mkProc None (concat args))
                  (mkUri (js "man") [] (js "git-annotate (1)") [] []))
               (js "git-annotate ") (js "1)")).
  - reflexivity.
  - apply existsb_not_In; reflexivity.
  - reflexivity.
Defined.

(** ** From a pick or a link to the page *)

(** X6.  Picking an apropos line [name (section) description], where name
    and section hold no parenthesis and the name does not end in white
    space, opens the address [man:name (section)]; on the path of that
    address the content provider runs [man section name] and returns its
    output, or throws [is man installed?] when the process could not be
    run. *)
Theorem picked_line_opens_its_page : forall spawnSync nm sec desc uri,
  noParen nm -> endsWithWhiteSpace nm = false -> noParen sec ->
  let e := {| name := nm; section := sec |} in
  manualsMan (Some (nm ++ js " (" ++ sec ++ js ") " ++ desc))
  = Some (formatAddress e)
  /\ (path uri = addressPath e ->
      provideTextDocumentContent spawnSync uri
      = match error (spawnSync (js "man") [sec; nm]) with
        | Some _ => Throw (Thrown manNotInstalled)
        | None => Return (stdout (spawnSync (js "man") [sec; nm]))
        end).
Proof.
  intros spawnSync nm sec desc uri [Hnl Hnr] Hw [Hsl Hsr] e. split.
  - unfold formatAddress, addressPath, e; cbn [name section].
    change (js " (") with [space; lparen]; change (js ")") with [rparen];
      change (js ") ") with [rparen; space].
    assert (~ In rparen (nm ++ [space; lparen] ++ sec)) as Hno.
    { intros H; apply in_app_or in H; destruct H as [H|H]; [exact (Hnr H)|].
      apply in_app_or in H; destruct H as [[H|[H|[]]]|H];
        [discriminate H | discriminate H | exact (Hsr H)]. }
    rewrite (@manualsMan_first (nm ++ [space; lparen] ++ sec ++ [rparen; space] ++ desc)
               (nm ++ [space; lparen] ++ sec) desc).
    + rewrite <- !app_assoc; reflexivity.
    + rewrite <- !app_assoc; reflexivity.
    + intros a' b' H. apply (@before_first rparen _ a' (space :: desc) (space :: b'));
        [exact Hno|]. rewrite <- H, <- !app_assoc. reflexivity.
  - intros Hp. unfold provideTextDocumentContent.
    rewrite Hp. unfold e.
    rewrite (@address_path_parse nm sec (conj Hnl Hnr) Hw (conj Hsl Hsr)).
    reflexivity.
Qed.

Lemma picked_line_opens_its_page_witness :
  manualsMan (Some (js "git-annotate" ++ js " (" ++ js "1" ++ js ") "
                       ++ js "- annotate file lines"))
  = Some (js "man:git-annotate (1)")
  /\ provideTextDocumentContent
       (fun _ args => mkProc None (concat args))
       (mkUri (js "man") [] (js "git-annotate (1)") [] [])
     = Return (js "1git-annotate").
Proof.
  destruct (@picked_line_opens_its_page
              (fun _ args => mkProc None (concat args))
              (js "git-annotate") (js "1") (js "- annotate file lines")
              (mkUri (js "man") [] (js "git-annotate (1)") [] [])
              ltac:(apply noParen_check; reflexivity)
              eq_refl
              ltac:(apply noParen_check; reflexivity)) as [H1 H2].
  split; [exact H1 | exact (H2 eq_refl)].
Defined.

Lemma word_not_white : forall c, isWordOrHyphen c -> isWhiteSpace c = false.
Proof.
  intros c H. destruct (isWhiteSpace c) eqn:E; [|reflexivity].
  unfold isWhiteSpace in E.
  rewrite ?orb_true_iff, ?andb_true_iff, ?N.leb_le, ?N.eqb_eq in E.
  unfold isWordOrHyphen, isUpper, isLower, isDigit in H. lia.
Qed.

Lemma word_not_paren : forall c, isWordOrHyphen c -> c <> lparen /\ c <> rparen.
Proof.
  intros c H.
  unfold isWordOrHyphen, isUpper, isLower, isDigit, lparen, rparen in *; lia.
Qed.

Lemma no_white_end : forall s,
  Forall (fun c => isWhiteSpace c = false) s -> endsWithWhiteSpace s = false.
Proof.
  intros s H; unfold endsWithWhiteSpace.
  apply Forall_rev in H. destruct (rev s); [reflexivity|].
  inversion H; assumption.
Qed.

(** The name and the section digit of a reference. *)
Lemma refPattern_parts : forall w,
  refPattern w ->
  exists nm d,
    w = nm ++ [lparen; d; rparen]
    /\ nm <> [] /\ Forall isWordOrHyphen nm /\ isDigit d.
Proof.
  intros w (c & run & d & -> & Hc & _ & Hr & Hd).
  exists (c :: run), d. split; [reflexivity|]. split; [discriminate|].
  split; [|exact Hd]. constructor; [right; left; exact Hc | exact Hr].
Qed.

(** X7.  Every link of [provideDocumentLinks] resolves: its target is
    [man:] followed by a name of word characters and hyphens and a
    one-digit section in parentheses, the text under the link; on that text
    [parseManEntry] returns this name and this section, and the content
    provider runs [man section name]. *)
Theorem links_resolve : forall document link,
  In link (provideDocumentLinks document) ->
  exists l nm d,
    nth_error (split newline document) (line (range_start (range link)))
    = Some l
    /\ substring l (character (range_start (range link)))
                   (length (nm ++ [lparen; d; rparen]))
       = nm ++ [lparen; d; rparen]
    /\ target link = js "man:" ++ nm ++ [lparen; d; rparen]
    /\ nm <> [] /\ Forall isWordOrHyphen nm /\ isDigit d
    /\ parseManEntry (nm ++ [lparen; d; rparen])
       = Return {| name := nm; section := [d] |}
    /\ forall spawnSync uri,
         path uri = nm ++ [lparen; d; rparen] ->
         provideTextDocumentContent spawnSync uri
         = match error (spawnSync (js "man") [[d]; nm]) with
           | Some _ => Throw (Thrown manNotInstalled)
           | None => Return (stdout (spawnSync (js "man") [[d]; nm]))
           end.
Proof.
  intros document link H.
  destruct (provideDocumentLinks_In _ _ H) as (i & l & col & w & Hl & Hm & ->).
  apply matchAll_link_iff in Hm. destruct Hm as ([_ Hsub] & Hp & _).
  destruct (refPattern_parts Hp) as (nm & d & -> & Hne & Hnm & Hd).
  assert (parseManEntry (nm ++ [lparen; d; rparen])
          = Return {| name := nm; section := [d] |}) as Hparse.
  { change (nm ++ [lparen; d; rparen])
      with (nm ++ lparen :: [d] ++ rparen :: []).
    rewrite parseManEntry_head_section.
    - rewrite trimEnd_fixed; [reflexivity|]. apply no_white_end.
      revert Hnm; apply Forall_impl; exact word_not_white.
    - intros K. rewrite Forall_forall in Hnm.
      destruct (word_not_paren (Hnm _ K)) as [K' _]; congruence.
    - unfold noParen, isDigit, lparen, rparen in *.
      split; intros [K|[]]; lia. }
  exists l, nm, d. cbn [range range_start line character target].
  split; [exact Hl|]. split; [exact Hsub|]. split; [reflexivity|].
  split; [exact Hne|]. split; [exact Hnm|]. split; [exact Hd|].
  split; [exact Hparse|].
  intros spawnSync uri Hu. unfold provideTextDocumentContent.
  rewrite Hu, Hparse. reflexivity.
Qed.

Lemma links_resolve_witness :
  exists l nm d,
    nth_error (split newline (page ["see"; "also ls(1)"]%string)) 1 = Some l
    /\ substring l 5 (length (nm ++ [lparen; d; rparen]))
       = nm ++ [lparen; d; rparen]
    /\ js "man:ls(1)" = js "man:" ++ nm ++ [lparen; d; rparen].
Proof.
  assert (In (mkLink (mkRange (mkPosition 1 5) (mkPosition 1 10))
                     (js "man:ls(1)"))
             (provideDocumentLinks (page ["see"; "also ls(1)"]%string))) as H
    by (vm_compute; left; reflexivity).
  destruct (links_resolve _ _ H) as (l & nm & d & H1 & H2 & H3 & _).
  exists l, nm, d. split; [exact H1|]. split; [exact H2 | exact H3].
Defined.

(** ** More on parseManEntry *)

(** X8.  [parseManEntry] returns an entry exactly on the lines that hold a
    [(], and the only thing it ever throws is the [TypeError]. *)
Theorem parseManEntry_returns_iff : forall line,
  ((exists e, parseManEntry line = Return e) <-> In lparen line)
  /\ forall x, parseManEntry line = Throw x -> x = TypeError.
Proof.
  intros line.
  destruct (first_lparen line) as [Hn | (head & tail & -> & Hh)].
  - rewrite parseManEntry_no_paren by exact Hn. split.
    + split; [intros (e & H); discriminate H | intros H; contradiction].
    + intros x H; injection H as <-; reflexivity.
  - rewrite parseManEntry_paren by exact Hh. split.
    + split; [|intros _; eexists; reflexivity].
      intros _; apply in_or_app; right; left; reflexivity.
    + intros x H; discriminate H.
Qed.

Lemma parseManEntry_returns_iff_witness :
  (exists e, parseManEntry (js "ls (1") = Return e) <-> In lparen (js "ls (1").
Proof. exact (proj1 (parseManEntry_returns_iff (js "ls (1"))). Defined.

(** ** More on provideFoldingRanges *)

(** X9.  A document of fewer than seven lines, the empty document
    included, has no folding: the analyzer throws its invalid-page error
    whatever the lines hold. *)
Theorem foldingRanges_short_page : forall document,
  length (split newline document) <= 6 ->
  provideFoldingRanges document = Throw (Thrown invalidManPage).
Proof.
  intros document Hlen. unfold provideFoldingRanges.
  destruct (foldingRanges_outcome (split newline document))
    as (k & pre & [_ Hk] & _ & _ & E).
  rewrite E.
  destruct (Z.geb_spec (Z.of_nat k)
                       (Z.of_nat (length (split newline document)) - 4))
    as [_|Hlt]; [reflexivity|].
  exfalso. destruct Hk as [->|[Hk _]]; lia.
Qed.

Lemma foldingRanges_short_page_witness :
  provideFoldingRanges
    (page ["LS(1)"; ""; "NAME"; "SYNOPSIS"; "OPTIONS"; "AUTHOR"]%string)
  = Throw (Thrown invalidManPage).
Proof.
  apply foldingRanges_short_page. vm_compute; lia.
Defined.

(** The loop records one region start per heading and closes the region
    before it on the line above. *)
Lemma loop_starts : forall lines m,
  let st := fold_left (foldStep lines) (seq 3 m)
                      {| result := []; foldStart := 2 |} in
  let hs := filter (fun i => isHeading (nth i lines [])) (seq 3 m) in
  map fold_start (result st) ++ [foldStart st] = 2%Z :: map Z.of_nat hs
  /\ map fold_end (result st) = map (fun i => (Z.of_nat i - 1)%Z) hs.
Proof.
  intros lines; induction m as [|m IH]; cbv zeta.
  - split; reflexivity.
  - cbv zeta in IH. rewrite seq_S, fold_left_app, filter_app.
    cbn [fold_left filter].
    set (st := fold_left (foldStep lines) (seq 3 m)
                         {| result := []; foldStart := 2 |}) in *.
    set (hs := filter (fun i => isHeading (nth i lines [])) (seq 3 m)) in *.
    destruct IH as [IH1 IH2].
    destruct (isHeading (nth (3 + m) lines [])) eqn:E.
    + rewrite foldStep_heading by exact E. cbn [result foldStart].
      rewrite !map_app. cbn [map fold_start fold_end].
      rewrite IH1, IH2. split; reflexivity.
    + rewrite foldStep_body by exact E.
      rewrite !app_nil_r. split; [exact IH1 | exact IH2].
Qed.

(** X10.  When the analyzer succeeds, its regions are read off the
    headings from index 3 on: the regions start on line 2 and on each such
    heading, in order, and end on the line above each such heading and on
    line [n - 4]; so there is one region more than there are headings. *)
Theorem foldingRanges_region_bounds : forall document rs,
  provideFoldingRanges document = Return rs ->
  let lines := split newline document in
  let hs := headingIndices lines in
  map fold_start rs = 2%Z :: map Z.of_nat hs
  /\ map fold_end rs
     = map (fun i => (Z.of_nat i - 1)%Z) hs
       ++ [(Z.of_nat (length lines) - 4)%Z]
  /\ length rs = S (length hs)
  /\ forall i, 3 <= i ->
       (headingAt lines i
        <-> exists r, In r rs /\ fold_start r = Z.of_nat i).
Proof.
  intros document rs H lines hs.
  unfold provideFoldingRanges, foldingRangesOfLines in H. fold lines in H.
  destruct (loop_starts lines (length lines - 3)) as [H1 H2].
  fold (foldLoop lines) in H1, H2. fold (headingIndices lines) in H1, H2.
  fold hs in H1, H2.
  destruct (foldStart (foldLoop lines) >=? Z.of_nat (length lines) - 4)%Z;
    [discriminate H|].
  injection H as <-.
  assert (map fold_start
              (result (foldLoop lines)
               ++ [mkFold (foldStart (foldLoop lines))
                          (Z.of_nat (length lines) - 4)])
          = 2%Z :: map Z.of_nat hs) as Hs
    by (rewrite map_app; exact H1).
  split; [exact Hs|].
  split; [rewrite map_app, H2; reflexivity|].
  split.
  - rewrite <- (length_map fold_start), Hs. simpl. rewrite length_map.
    reflexivity.
  - intros i Hi. split.
    + intros Hh.
      assert (In (Z.of_nat i) (2%Z :: map Z.of_nat hs)) as Hin.
      { right; apply in_map. apply filter_In. split.
        - apply in_seq. pose proof (headingAt_bound Hh). lia.
        - apply headingAt_nth; exact Hh. }
      rewrite <- Hs in Hin. apply in_map_iff in Hin.
      destruct Hin as (r & Hr & Hin). exists r; auto.
    + intros (r & Hin & Hr).
      assert (In (Z.of_nat i) (2%Z :: map Z.of_nat hs)) as Hin'
        by (rewrite <- Hs, <- Hr; apply in_map; exact Hin).
      destruct Hin' as [K|K]; [lia|].
      apply in_map_iff in K. destruct K as (j & Hj & K).
      apply Nat2Z.inj in Hj; subst j.
      apply filter_In in K. apply headingAt_nth, K.
Qed.

Lemma foldingRanges_region_bounds_witness :
  let document := page ["TITLE(1)"; ""; "first"; "NAME"; " a"; " b"; "";
                        "SYNOPSIS"; " c"; ""; "footer 1.0"; ""]%string in
  map fold_start [mkFold 2 2; mkFold 3 6; mkFold 7 8]
  = 2%Z :: map Z.of_nat (headingIndices (split newline document)).
Proof.
  intros document.
  apply (@foldingRanges_region_bounds document
           [mkFold 2 2; mkFold 3 6; mkFold 7 8] eq_refl).
Defined.

Lemma fold_left_ext_in : forall A B (f g : A -> B -> A) l a,
  (forall x y, In y l -> f x y = g x y) ->
  fold_left f l a = fold_left g l a.
Proof.
  induction l as [|y l IH]; intros a H; simpl; [reflexivity|].
  rewrite (H a y (or_introl eq_refl)). apply IH.
  intros x z Hz; apply H; right; exact Hz.
Qed.

(** X11.  The analyzer never looks at the first three lines: two
    documents with as many lines and the same lines from index 3 on have
    the same outcome.  Line 2 opens the first region whether it is a
    heading or not. *)
Theorem foldingRanges_ignores_top : forall d1 d2,
  length (split newline d1) = length (split newline d2) ->
  (forall i, 3 <= i ->
             nth_error (split newline d1) i = nth_error (split newline d2) i) ->
  provideFoldingRanges d1 = provideFoldingRanges d2.
Proof.
  intros d1 d2 Hlen Hsame.
  unfold provideFoldingRanges, foldingRangesOfLines, foldLoop.
  rewrite Hlen.
  rewrite (@fold_left_ext_in _ _ (foldStep (split newline d1))
                             (foldStep (split newline d2))); [reflexivity|].
  intros st i Hi. apply in_seq in Hi. unfold foldStep.
  replace (nth i (split newline d1) []) with (nth i (split newline d2) []);
    [reflexivity|].
  apply nth_error_nth with (d := []).
  rewrite <- Hsame by lia. apply nth_error_nth'. lia.
Qed.

Lemma foldingRanges_ignores_top_witness :
  provideFoldingRanges
    (page ["LS(1)"; ""; "NAME"; " ls"; ""; "DESCRIPTION"; " d"; " e"; "";
           "v1.0"; ""]%string)
  = provideFoldingRanges
      (page ["x"; "y"; "not a heading"; " ls"; ""; "DESCRIPTION"; " d"; " e";
             ""; "v1.0"; ""]%string).
Proof.
  apply foldingRanges_ignores_top; unfold page;
    rewrite !split_joinLines
      by (first [discriminate
                | repeat constructor; apply existsb_not_In; reflexivity]).
  - reflexivity.
  - intros i Hi. do 3 (destruct i as [|i]; [lia|]). reflexivity.
Defined.

(** ** More on provideDocumentLinks *)

Lemma flat_map_seq_ext : forall A (f g : nat -> list A) n start,
  (forall i, start <= i < start + n -> f i = g i) ->
  flat_map f (seq start n) = flat_map g (seq start n).
Proof.
  induction n as [|n IH]; intros start H; simpl; [reflexivity|].
  rewrite (H start) by lia. f_equal. apply IH. intros i Hi; apply H; lia.
Qed.

Lemma flat_map_seq_shift : forall A n (f : nat -> list A) k,
  flat_map f (seq k n) = flat_map (fun i => f (k + i)) (seq 0 n).
Proof.
  induction n as [|n IH]; intros f k; simpl; [reflexivity|].
  rewrite Nat.add_0_r. f_equal.
  rewrite (IH f (S k)), (IH (fun i => f (k + i)) 1).
  apply flat_map_ext. intros i. f_equal. lia.
Qed.

Lemma lineLinks_shift : forall k i l,
  lineLinks (k + i) l = map (shiftLink k) (lineLinks i l).
Proof.
  intros k i l; unfold lineLinks. rewrite map_map. apply map_ext.
  intros [col w]. unfold shiftLink, shiftPosition, translate.
  cbn [range range_start range_end line character target fst snd].
  do 3 f_equal. lia.
Qed.

(** X12.  The links are found line by line: the links of a document made
    of [a], a line break and [b] are those of [a] followed by those of
    [b] moved down by the number of lines of [a].  Text added after a line
    break changes no link above it. *)
Theorem links_line_by_line : forall a b,
  provideDocumentLinks (a ++ newline :: b)
  = provideDocumentLinks a
    ++ map (shiftLink (length (split newline a))) (provideDocumentLinks b).
Proof.
  intros a b. rewrite !provideDocumentLinks_eq, split_app, length_app.
  set (la := split newline a). set (lb := split newline b).
  rewrite seq_app, flat_map_app. f_equal.
  - apply flat_map_seq_ext. intros i Hi.
    rewrite app_nth1 by lia. reflexivity.
  - cbn [Nat.add]. rewrite flat_map_seq_shift, map_flat_map.
    apply flat_map_ext. intros i.
    rewrite app_nth2_plus. apply lineLinks_shift.
Qed.
